(** * Markov Chain Visualizer: the numerical engine of [js/app.js]

  A shallow embedding of the simulation and analysis core of the
  visualizer (row normalisation, [p_{t+1} = p_t P], the row-stochastic
  check, the power method, absorbing rows), of the handlers that add and
  remove states, and of the timer-driven run loop.

  The source computes on JavaScript numbers.  The engine is written once
  over an interface of the operations it uses ([JsNumber]) and read at two
  carriers: [Qc], exact rationals (the arithmetic the documentation of the
  program reasons in), and [float], IEEE 754 binary64 (the arithmetic the
  program runs in). *)

From Stdlib Require Import String Ascii.
From Stdlib Require Import List Arith Lia Bool ZArith.
From Stdlib Require Import QArith Qcanon Qcabs.
From Stdlib Require Import Floats Uint63 DecimalString.
From Stdlib Require Import Sorted.
Import ListNotations.

Close Scope Qc_scope.
Close Scope Q_scope.
Close Scope float_scope.

Set Warnings "-inexact-float".
Set Implicit Arguments.

(** ** Numbers *)

(** The operations of a JavaScript number that the program uses.
  [lt a b] is [a < b] and [le a b] is [a <= b]; the source's [a > b] is
  [lt b a] and [a >= b] is [le b a].  [NaN] is what an [undefined] operand
  (an index past the end of an array) becomes in arithmetic. *)
Class JsNumber (R : Type) : Type := {
  lit0 : R;
  lit1 : R;
  lit1e_9 : R;
  lit1e_10 : R;
  lit1e_12 : R;
  add : R -> R -> R;
  sub : R -> R -> R;
  mul : R -> R -> R;
  div : R -> R -> R;
  neg : R -> R;
  abs : R -> R;
  lt : R -> R -> bool;
  le : R -> R -> bool;
  isNaN : R -> bool;
  isFinite : R -> bool;
  NaN : R;
  ofNat : nat -> R
}.

(** Exact rationals.  There is no NaN and no infinity here: every number is
    finite, [NaN] is only the default of an out-of-range read (never reached
    when the shapes agree) and [div x 0] is [0] (the program divides only by
    a sum it has tested to be positive, or by the number of states). *)
Module Exact.

(** [a < b] *)
Definition ltb (a b : Qc) : bool :=
  match (a ?= b)%Qc with Lt => true | _ => false end.

(** [a <= b] *)
Definition leb (a b : Qc) : bool :=
  match (a ?= b)%Qc with Gt => false | _ => true end.

(** The decimal literal [m / e], [e] a power of ten. *)
Definition dec (m : Z) (e : positive) : Qc := Q2Qc (m # e).

#[global] Instance jsNumber : JsNumber Qc := {|
  lit0 := Q2Qc 0;
  lit1 := Q2Qc 1;
  lit1e_9 := dec 1 1000000000;
  lit1e_10 := dec 1 10000000000;
  lit1e_12 := dec 1 1000000000000;
  add := Qcplus;
  sub := Qcminus;
  mul := Qcmult;
  div := Qcdiv;
  neg := Qcopp;
  abs := Qcabs;
  lt := ltb;
  le := leb;
  isNaN := fun _ => false;
  isFinite := fun _ => true;
  NaN := Q2Qc 0;
  ofNat := fun n => Q2Qc (inject_Z (Z.of_nat n))
|}.

End Exact.

(** IEEE 754 binary64, the numbers the program runs on.  [ofNat] is exact
    below 2^53, far above any count the program reaches. *)
Module Binary64.

(** [Number.isFinite] *)
Definition finite (x : float) : bool :=
  negb (PrimFloat.is_nan x) && negb (PrimFloat.is_infinity x).

#[global] Instance jsNumber : JsNumber float := {|
  lit0 := 0%float;
  lit1 := 1%float;
  lit1e_9 := 1e-9%float;
  lit1e_10 := 1e-10%float;
  lit1e_12 := 1e-12%float;
  add := PrimFloat.add;
  sub := PrimFloat.sub;
  mul := PrimFloat.mul;
  div := PrimFloat.div;
  neg := PrimFloat.opp;
  abs := PrimFloat.abs;
  lt := PrimFloat.ltb;
  le := PrimFloat.leb;
  isNaN := PrimFloat.is_nan;
  isFinite := finite;
  NaN := PrimFloat.nan;
  ofNat := fun n => PrimFloat.of_uint63 (Uint63.of_Z (Z.of_nat n))
|}.

End Binary64.

(** ** The engine *)

Section Engine.

Context {R : Type} `{JsNumber R}.

Definition vec : Type := list R.
Definition matrix : Type := list (list R).

(** [v[k]] read as an operand: [undefined] past the end, hence [NaN]. *)
Definition at_ (v : vec) (k : nat) : R := nth k v NaN.

(** [P[k]]; every read in the program has [k < P.length]. *)
Definition rowAt (P : matrix) (k : nat) : vec := nth k P [].

(** [row.reduce((a,b)=>a+b,0)] *)
Definition rowSum (row : vec) : R := fold_left add row lit0.

Definition normalizeRow (row : vec) : vec :=
  let s := rowSum row in
  if le s lit0 then map (fun _ => lit0) row
  else map (fun x => div x s) row.

Definition normalizeVector (v : vec) : vec :=
  let s := rowSum v in
  if le s lit0 then map (fun _ => lit0) v
  else map (fun x => div x s) v.

(** The inner loop of [multRowVecMat]: [sum += p[k]*P[k][j]] for
    [k = 0 .. n-1]. *)
Definition dotColumn (p : vec) (P : matrix) (n j : nat) : R :=
  fold_left (fun sum k => add sum (mul (at_ p k) (at_ (rowAt P k) j)))
            (seq 0 n) lit0.

Definition multRowVecMat (p : vec) (P : matrix) : vec :=
  let n := length P in
  map (dotColumn p P n) (seq 0 n).

Definition l1 (a b : vec) : R :=
  fold_left (fun s i => add s (abs (sub (at_ a i) (at_ b i))))
            (seq 0 (length a)) lit0.

Fixpoint isRowStochastic (P : matrix) (tol : R) : bool :=
  match P with
  | [] => true
  | row :: rest =>
      if existsb (fun x => lt x (neg lit1e_12)) row then false
      else if lt tol (abs (sub (rowSum row) lit1)) then false
      else isRowStochastic rest tol
  end.

(** The inner loop of [absorbingStates] with its [break]: [isAbs] after
    scanning the columns [js] of row [i]. *)
Fixpoint isAbs (P : matrix) (tol : R) (i : nat) (js : list nat) : bool :=
  match js with
  | [] => true
  | j :: js' =>
      let expected := if Nat.eqb i j then lit1 else lit0 in
      if lt tol (abs (sub (at_ (rowAt P i) j) expected)) then false
      else isAbs P tol i js'
  end.

Definition absorbingStates (P : matrix) (tol : R) : list nat :=
  let n := length P in
  filter (fun i => isAbs P tol i (seq 0 n)) (seq 0 n).

(** The [for] loop of [stationaryDistribution] with [iters] iterations
    left. *)
Fixpoint powerLoop (P : matrix) (tol : R) (iters : nat) (pi : vec) : vec :=
  match iters with
  | O => pi
  | S iters' =>
      let next := multRowVecMat pi P in
      if lt (l1 next pi) tol then next
      else powerLoop P tol iters' next
  end.

(** [Array(n).fill(1/n)] *)
Definition uniform (n : nat) : vec := repeat (div lit1 (ofNat n)) n.

Definition stationaryDistribution (P : matrix) (tol : R) (maxIter : nat) : vec :=
  powerLoop P tol maxIter (uniform (length P)).

(** ** The page state

    The global [state] object.  [chart] and the SVG graph are renderings of
    [p] and are left out; [analysis] is the text of the [#analysis] box, one
    entry per call of [logAnalysis], the stationary report kept as the numbers
    it prints.  [main] runs [resetSim] before any handler is wired, so [p] is
    always set. *)

Inductive message : Type :=
| Text (s : string)
| StationaryReport (pi : vec) (err : R).

Record state : Type := mkState {
  labels : list string;
  P : matrix;
  p0 : vec;
  running : bool;
  timer : option positive;
  stepIdx : nat;
  p : vec;
  analysis : list message
}.

Definition withRunning (b : bool) (s : state) : state :=
  mkState (labels s) (P s) (p0 s) b (timer s) (stepIdx s) (p s) (analysis s).

Definition withTimer (t : option positive) (s : state) : state :=
  mkState (labels s) (P s) (p0 s) (running s) t (stepIdx s) (p s) (analysis s).

Definition withSession (t : nat) (v : vec) (s : state) : state :=
  mkState (labels s) (P s) (p0 s) (running s) (timer s) t v (analysis s).

Definition withAnalysis (a : list message) (s : state) : state :=
  mkState (labels s) (P s) (p0 s) (running s) (timer s) (stepIdx s) (p s) a.

Definition withConfig (l : list string) (M : matrix) (v : vec) (s : state) : state :=
  mkState l M v (running s) (timer s) (stepIdx s) (p s) (analysis s).

Definition logAnalysis (m : message) (s : state) : state :=
  withAnalysis (analysis s ++ [m]) s.

Inductive kind : Type := Info | Warn | Error.

(** A string from its UTF-8 bytes. *)
Definition utf8 (bytes : list nat) : string :=
  fold_right (fun b s => String (ascii_of_nat b) s) EmptyString bytes.

(** The marks [toast] puts before a message: the warning sign (U+26A0
    U+FE0F), the cross mark (U+274C) and the information sign (U+2139
    U+FE0F), each followed by a space. *)
Definition mark (k : kind) : string :=
  match k with
  | Warn => utf8 [226; 154; 160; 239; 184; 143; 32]
  | Error => utf8 [226; 157; 140; 32]
  | Info => utf8 [226; 132; 185; 239; 184; 143; 32]
  end.

Definition toast (msg : string) (k : kind) (s : state) : state :=
  logAnalysis (Text (mark k ++ msg)) s.

(** [`State ${n}`] *)
Definition stateName (n : nat) : string :=
  ("State " ++ NilZero.string_of_uint (Nat.to_uint n))%string.

(** ** The inputs of the page

    What [syncFromInputs] reads: the text inputs of the state names and the
    number inputs of the two tables, each after [parseFloat]; and what [run]
    reads, the [#maxSteps] input after unary [+].
    [updateMatrixHeaders] and [buildStatesInputs] rebuild these inputs after
    every change of the number of states, one [.cell] input per entry of
    [state.P] (with its [data-i], [data-j]), one [.init] input per entry of
    [state.p0] and one text input per label; the loops of [syncFromInputs]
    therefore overwrite exactly the entries that exist. *)
Record dom : Type := mkDom {
  cellValue : nat -> nat -> R;
  initValue : nat -> R;
  nameValue : nat -> string;
  maxStepsValue : R
}.

(** [if (!Number.isFinite(v) || v < 0) v = 0] *)
Definition sanitize (v : R) : R :=
  if negb (isFinite v) || lt v lit0 then lit0 else v.

Definition imap {A B : Type} (f : nat -> A -> B) (l : list A) : list B :=
  map (fun ia => f (fst ia) (snd ia)) (combine (seq 0 (length l)) l).

Definition syncFromInputs (d : dom) (s : state) : state :=
  withConfig
    (imap (fun i _ => if String.eqb (nameValue d i) EmptyString then stateName (i + 1)
                      else nameValue d i) (labels s))
    (imap (fun i row => imap (fun j _ => sanitize (cellValue d i j)) row) (P s))
    (imap (fun j _ => sanitize (initValue d j)) (p0 s))
    s.

(** ** Simulation *)

Definition resetSim (s : state) : state :=
  withAnalysis [] (withSession 0 (normalizeVector (p0 s)) s).

Definition invalidMatrix : string :=
  "Matrix rows must each sum to 1. Try Normalize Rows.".

Definition stepOnce (d : dom) (s : state) : state :=
  let s := syncFromInputs d s in
  if negb (isRowStochastic (P s) lit1e_9) then toast invalidMatrix Warn s
  else
    let s := withSession (stepIdx s + 1) (p s) s in
    withSession (stepIdx s) (multRowVecMat (p s) (P s)) s.

Definition onComputeStationary (d : dom) (s : state) : state :=
  let s := syncFromInputs d s in
  if negb (isRowStochastic (P s) lit1e_9) then toast invalidMatrix Warn s
  else
    let pi := stationaryDistribution (P s) lit1e_10 (20 * 1000) in
    let err := l1 (multRowVecMat pi (P s)) pi in
    logAnalysis (StationaryReport pi err) s.

(** ** Adding and removing a state *)

(** [M[i][j] = v].  JavaScript throws a [TypeError] when [M[i]] is
    [undefined], replaces the entry when [j] is inside row [i], appends when
    [j] is its length, and leaves holes when [j] is further out; [None] stands
    for the [TypeError] and for the sparse row, which this development does
    not represent. *)
Fixpoint setEntry (row : vec) (j : nat) (v : R) : option vec :=
  match row, j with
  | [], O => Some [v]
  | [], S _ => None
  | _ :: row', O => Some (v :: row')
  | x :: row', S j' => option_map (cons x) (setEntry row' j' v)
  end.

Fixpoint setCell (M : matrix) (i j : nat) (v : R) : option matrix :=
  match M, i with
  | [], _ => None
  | row :: M', O => option_map (fun r => r :: M') (setEntry row j v)
  | row :: M', S i' => option_map (cons row) (setCell M' i' j v)
  end.

Definition addState (s : state) : option state :=
  let n := length (labels s) in
  let labels' := labels s ++ [stateName (n + 1)] in
  let P1 := map (fun row => row ++ [lit0]) (P s) in
  let P2 := P1 ++ [repeat lit0 (n + 1)] in
  match setCell P2 n n lit1 with
  | None => None
  | Some P3 => Some (withConfig labels' P3 (p0 s ++ [lit0]) s)
  end.

Definition removeState (s : state) : state :=
  if length (labels s) <=? 1 then s
  else withConfig (removelast (labels s))
                  (map (@removelast R) (removelast (P s)))
                  (removelast (p0 s)) s.

(** ** The run loop

    [run] and [tick] re-arm themselves with [setTimeout]; the browser is the
    list of armed timeouts, each with the [maxSteps] its [tick] closure
    captured.  The delay read from [#speed] only orders firings in time and is
    not represented: an armed timeout may fire at any moment.  Timer handles
    are positive, as the HTML standard requires, so [if (state.timer)] holds
    exactly when a handle is stored. *)

Record world : Type := mkWorld {
  page : state;
  armed : list (positive * R);
  nextHandle : positive
}.

Definition clearTimeout (id : positive) (l : list (positive * R)) : list (positive * R) :=
  filter (fun e => negb (Pos.eqb (fst e) id)) l.

(** [state.timer = setTimeout(tick, speedNow)] *)
Definition setTimeout (maxSteps : R) (w : world) : world :=
  mkWorld (withTimer (Some (nextHandle w)) (page w))
          (armed w ++ [(nextHandle w, maxSteps)])
          (Pos.succ (nextHandle w)).

Definition pause (w : world) : world :=
  let s := withRunning false (page w) in
  match timer s with
  | Some id => mkWorld (withTimer None s) (clearTimeout id (armed w)) (nextHandle w)
  | None => mkWorld s (armed w) (nextHandle w)
  end.

Definition tick (maxSteps : R) (d : dom) (w : world) : world :=
  if negb (running (page w)) then w
  else
    let w := mkWorld (stepOnce d (page w)) (armed w) (nextHandle w) in
    if le maxSteps (ofNat (stepIdx (page w))) then pause w
    else setTimeout maxSteps w.

(** [x || y] on numbers: [y] when [x] is [0], [-0] or [NaN]. *)
Definition orElse (x y : R) : R :=
  if isNaN x || (le x lit0 && le lit0 x) then y else x.

(** [Math.min] and [Math.max], up to the sign of a zero result. *)
Definition mathMin (a b : R) : R :=
  if isNaN a || isNaN b then NaN else if lt b a then b else a.

Definition mathMax (a b : R) : R :=
  if isNaN a || isNaN b then NaN else if lt a b then b else a.

Definition run (d : dom) (w : world) : world :=
  if running (page w) then w
  else
    let w := mkWorld (withRunning true (page w)) (armed w) (nextHandle w) in
    let maxSteps :=
      mathMax lit1 (mathMin (ofNat 2000) (orElse (maxStepsValue d) (ofNat 200))) in
    tick maxSteps d w.

(** What can happen to the page: a click on Step, Run or Pause, the tab
    becoming hidden, and the browser firing the timeout with handle [id].
    The events that reach [stepOnce] carry the inputs as they are then. *)
Inductive event : Type :=
| ClickStep (d : dom)
| ClickRun (d : dom)
| ClickPause
| TabHidden
| Timeout (id : positive) (d : dom).

Definition handle (w : world) (e : event) : world :=
  match e with
  | ClickStep d => mkWorld (stepOnce d (page w)) (armed w) (nextHandle w)
  | ClickRun d => run d w
  | ClickPause => pause w
  | TabHidden => if running (page w) then pause w else w
  | Timeout id d =>
      match find (fun e => Pos.eqb (fst e) id) (armed w) with
      | Some e => tick (snd e) d (mkWorld (page w) (clearTimeout id (armed w)) (nextHandle w))
      | None => w
      end
  end.

Definition handleAll (w : world) (es : list event) : world :=
  fold_left handle es w.

(** The inputs as the page shows a configuration whose entries have at most
    three decimals ([toFixed(3)] followed by [parseFloat] gives such an entry
    back), with [maxSteps] typed into [#maxSteps]. *)
Definition shown (s : state) (maxSteps : R) : dom :=
  mkDom (fun i j => at_ (rowAt (P s) i) j)
        (fun j => at_ (p0 s) j)
        (fun i => nth i (labels s) EmptyString)
        maxSteps.

(** The page after [loadPreset] and [resetSim] on the given configuration. *)
Definition loaded (l : list string) (M : matrix) (v : vec) : state :=
  resetSim (mkState l M v false None 0 [] []).

End Engine.

Arguments state R : clear implicits.
Arguments dom R : clear implicits.
Arguments world R : clear implicits.
Arguments event R : clear implicits.
Arguments message R : clear implicits.

Unset Implicit Arguments.

(** ** Presets and scenarios of the specification, at both carriers *)

Module ExactPresets.

Import Exact.

Definition weather : list (list Qc) :=
  [[dec 8 10; dec 2 10]; [dec 4 10; dec 6 10]].

Definition absorbing : list (list Qc) :=
  [[dec 85 100; dec 10 100; dec 5 100];
   [dec 0 1; dec 1 1; dec 0 1];
   [dec 0 1; dec 0 1; dec 1 1]].

Definition invalid : list (list Qc) :=
  [[dec 5 10; dec 6 10]; [dec 4 10; dec 6 10]].

Definition weatherPage : state Qc :=
  loaded ["Sunny"; "Rainy"]%string weather [dec 1 1; dec 0 1].

Definition weatherInputs : dom Qc := shown weatherPage (dec 2000 1).

End ExactPresets.

Module FloatPresets.

Definition weather : list (list float) :=
  [[0.8; 0.2]; [0.4; 0.6]]%float.

Definition absorbing : list (list float) :=
  [[0.85; 0.10; 0.05]; [0; 1; 0]; [0; 0; 1]]%float.

Definition invalid : list (list float) :=
  [[0.5; 0.6]; [0.4; 0.6]]%float.

Definition weatherPage : state float :=
  loaded ["Sunny"; "Rainy"]%string weather [1; 0]%float.

Definition weatherInputs : dom float := shown weatherPage 2000%float.

(** A page showing the invalid matrix, five steps into a simulation. *)
Definition invalidPage : state float :=
  mkState ["A"; "B"]%string invalid [1; 0]%float false None 5 [0.3; 0.7]%float [].

Definition invalidInputs : dom float := shown invalidPage 0%float.

(** The weather page right after Run is clicked, nothing armed before. *)
Definition runningWorld : world float :=
  handle (mkWorld weatherPage [] 1%positive) (ClickRun weatherInputs).

End FloatPresets.

(** ** The notions the properties are stated with *)

Section Notions.

Context {R : Type} `{JsNumber R}.

(** A row is rejected when one of its entries is below [-1e-12] or its sum is
    further than [tol] from one. *)
Definition rowRejected (tol : R) (row : list R) : Prop :=
  (exists x, In x row /\ lt x (neg lit1e_12) = true) \/
  lt tol (abs (sub (rowSum row) lit1)) = true.

(** [P[i][j]] is further than [tol] from the entry of the identity. *)
Definition offIdentity (M : list (list R)) (tol : R) (i j : nat) : bool :=
  lt tol (abs (sub (at_ (rowAt M i) j) (if Nat.eqb i j then lit1 else lit0))).

(** The [n]x[n] identity matrix. *)
Definition identity (n : nat) : list (list R) :=
  map (fun i => map (fun j => if Nat.eqb i j then lit1 else lit0) (seq 0 n))
      (seq 0 n).

(** The [k]-th iterate [v P^k]. *)
Definition iterate (M : list (list R)) (v : list R) (k : nat) : list R :=
  Nat.iter k (fun u => multRowVecMat u M) v.

(** The loop test at iteration [k]: [l1(next, pi) < tol]. *)
Definition closeAt (M : list (list R)) (tol : R) (v : list R) (k : nat) : bool :=
  lt (l1 (iterate M v (S k)) (iterate M v k)) tol.

(** The labels, the initial vector and the matrix have one size [n >= 1]. *)
Definition lockStep (s : state R) : Prop :=
  let n := length (labels s) in
  1 <= n /\ length (p0 s) = n /\ length (P s) = n /\
  Forall (fun row => length row = n) (P s).

(** What [addState] builds from a matrix with [n] rows. *)
Definition grown (M : list (list R)) (n : nat) : list (list R) :=
  map (fun row => row ++ [lit0]) M ++ [repeat lit0 n ++ [lit1]].

(** Everything that can happen without a click on Step or Run: timeouts
    firing, Pause clicked again, the tab being hidden. *)
Definition quiet (e : event R) : Prop :=
  match e with
  | Timeout _ _ | ClickPause | TabHidden => True
  | ClickStep _ | ClickRun _ => False
  end.

(** The page is stopped: the flag is cleared and no handle is stored. *)
Definition stopped (w : world R) : Prop :=
  running (page w) = false /\ timer (page w) = None.

(** At most the timeout whose handle the page stores is armed. *)
Definition tracked (w : world R) : Prop :=
  armed w = [] \/ exists id m, armed w = [(id, m)] /\ timer (page w) = Some id.

(** Between handlers a timeout is armed only while the loop runs. *)
Definition tidy (w : world R) : Prop :=
  tracked w /\ (running (page w) = false -> armed w = []).

End Notions.

(** ** The editing handlers and the remaining helpers

    The rest of [js/app.js] that computes on the configuration: the buttons
    that rewrite the matrix or the initial vector, the change handlers of the
    two tables, the absorbing-state report and the HTML escaping of labels.
    Rebuilding the tables, the chart and the graph is left out, as before. *)

Section Editing.

Context {R : Type} `{JsNumber R}.

(** [clamp(x, lo, hi)], that is [Math.max(lo, Math.min(hi, x))] *)
Definition clamp (x lo hi : R) : R := mathMax lo (mathMin hi x).

(** [state.P = state.P.map(normalizeRow)] *)
Definition normalizeRows (s : state R) : state R :=
  withConfig (labels s) (map normalizeRow (P s)) (p0 s) s.

(** [randomizeMatrix], with [rnd i j] the number [Math.random()] returns for
    entry [j] of row [i]: every row is rebuilt with [n = P.length] entries and
    normalised. *)
Definition randomizeMatrix (rnd : nat -> nat -> R) (s : state R) : state R :=
  let n := length (P s) in
  withConfig (labels s)
             (map (fun i => normalizeRow (map (rnd i) (seq 0 n))) (seq 0 n))
             (p0 s) s.

(** [state.p0 = Array(n).fill(1/n)] with [n = state.labels.length] *)
Definition setUniformInit (s : state R) : state R :=
  withConfig (labels s) (P s) (uniform (length (labels s))) s.

(** [state.p0 = normalizeVector(state.p0)] *)
Definition normalizeInit (s : state R) : state R :=
  withConfig (labels s) (P s) (normalizeVector (p0 s)) s.

(** The change handler of a matrix cell with [data-i = i], [data-j = j] whose
    text parses to [v]: a value that is not finite or is negative is dropped
    (only the input's text is reset), any other is stored with
    [state.P[i][j] = v].  [None] as for [setCell]. *)
Definition onMatrixChange (i j : nat) (v : R) (s : state R) : option (state R) :=
  if negb (isFinite v) || lt v lit0 then Some s
  else match setCell (P s) i j v with
       | Some M => Some (withConfig (labels s) M (p0 s) s)
       | None => None
       end.

(** The change handler of an initial-distribution cell: [state.p0[j] = v]
    under the same test.  [None] when the write would leave holes. *)
Definition onInitChange (j : nat) (v : R) (s : state R) : option (state R) :=
  if negb (isFinite v) || lt v lit0 then Some s
  else match setEntry (p0 s) j v with
       | Some q => Some (withConfig (labels s) (P s) q s)
       | None => None
       end.

(** [checkAbsorbing]: the names of the absorbing states, joined with a comma
    and a space; a missing label joins as the empty string. *)
Definition checkAbsorbing (s : state R) : state R :=
  let idx := absorbingStates (P s) lit1e_12 in
  let names := map (fun i => nth i (labels s) EmptyString) idx in
  let msg :=
    match idx with
    | [] => "No absorbing states detected."%string
    | _ :: _ => ("Absorbing states: " ++ String.concat ", " names)%string
    end in
  logAnalysis (Text msg) s.

Definition onCheckAbsorbing (d : dom R) (s : state R) : state R :=
  checkAbsorbing (syncFromInputs d s).

End Editing.

(** [escapeHtml] on the UTF-8 bytes of a string: the five characters
    [&], [<], [>], the double quote and the apostrophe are below 128 and no
    byte of a longer sequence is, so replacing bytes is replacing
    characters. *)
Definition escapeChar (c : ascii) : string :=
  match nat_of_ascii c with
  | 38 => "&amp;"
  | 60 => "&lt;"
  | 62 => "&gt;"
  | 34 => "&quot;"
  | 39 => "&#39;"
  | _ => String c EmptyString
  end%string.

Fixpoint escapeHtml (str : string) : string :=
  match str with
  | EmptyString => EmptyString
  | String c rest => (escapeChar c ++ escapeHtml rest)%string
  end.

(** The characters [escapeHtml] replaces. *)
Definition special (c : ascii) : bool :=
  match nat_of_ascii c with
  | 38 | 60 | 62 | 34 | 39 => true
  | _ => false
  end.

(** ** Further notions *)

Section MoreNotions.

Context {R : Type} `{JsNumber R}.

(** The vector with a one at index [i] and zeros elsewhere. *)
Definition basis (n i : nat) : list R :=
  map (fun j => if Nat.eqb i j then lit1 else lit0) (seq 0 n).

(** The browser fires the timeout that is armed, if any. *)
Definition fire (d : dom R) (w : world R) : world R :=
  match armed w with
  | [] => w
  | e :: _ => handle w (Timeout (fst e) d)
  end.

(** The [maxSteps] that [run] computes from the [#maxSteps] input. *)
Definition runLimit (d : dom R) : R :=
  mathMax lit1 (mathMin (ofNat 2000) (orElse (maxStepsValue d) (ofNat 200))).

(** The line [toast] logs for an invalid matrix. *)
Definition invalidWarning : message R := Text (mark Warn ++ invalidMatrix).

(** What the program needs of the order of its numbers. *)
Record OrderLaws : Prop := {
  lt_le : forall a b : R, lt a b = true -> le a b = true;
  le_refl : forall a : R, isNaN a = false -> le a a = true
}.

End MoreNotions.

Arguments OrderLaws R {_}.

(** ** A row whose sum overflows *)

(** Two finite entries, each acceptable to [onMatrixChange], whose binary64
    sum is [+Infinity]. *)
Definition overflowRow : list float := [1e308; 1e308]%float.

(** The weather page after [1e308] is entered in both cells of its first
    row. *)
Definition overflowPage : option (state float) :=
  match onMatrixChange 0 0 1e308%float FloatPresets.weatherPage with
  | Some s => onMatrixChange 0 1 1e308%float s
  | None => None
  end.

(** ** Facts that hold at every carrier *)

Section EngineFacts.

Context {R : Type} `{JsNumber R}.

Lemma sync_keeps_session (d : dom R) (s : state R) :
  p (syncFromInputs d s) = p s /\
  stepIdx (syncFromInputs d s) = stepIdx s /\
  running (syncFromInputs d s) = running s /\
  timer (syncFromInputs d s) = timer s /\
  analysis (syncFromInputs d s) = analysis s.
Proof. repeat split. Qed.

Lemma stepOnce_valid (d : dom R) (s : state R) :
  isRowStochastic (P (syncFromInputs d s)) lit1e_9 = true ->
  stepOnce d s =
  withSession (stepIdx s + 1) (multRowVecMat (p s) (P (syncFromInputs d s)))
              (syncFromInputs d s).
Proof.
  intros Hok. unfold stepOnce. rewrite Hok. reflexivity.
Qed.

Lemma stepOnce_invalid (d : dom R) (s : state R) :
  isRowStochastic (P (syncFromInputs d s)) lit1e_9 = false ->
  stepOnce d s = toast invalidMatrix Warn (syncFromInputs d s).
Proof.
  intros Hbad. unfold stepOnce. rewrite Hbad. reflexivity.
Qed.

Lemma onComputeStationary_invalid (d : dom R) (s : state R) :
  isRowStochastic (P (syncFromInputs d s)) lit1e_9 = false ->
  onComputeStationary d s = toast invalidMatrix Warn (syncFromInputs d s).
Proof.
  intros Hbad. unfold onComputeStationary. rewrite Hbad. reflexivity.
Qed.

End EngineFacts.

(** ** Equality of exact vectors *)

Lemma Qc_vec_eq (u v : list Qc) : map this u = map this v -> u = v.
Proof.
  revert v. induction u as [|x u IH]; intros [|y v] E; try discriminate.
  - reflexivity.
  - simpl in E. injection E as Exy Euv. f_equal.
    + apply Qc_is_canon. rewrite Exy. reflexivity.
    + apply IH. exact Euv.
Qed.

(** ** One step of the simulation *)

(** C1.  Whenever the matrix read from the inputs passes the row-stochastic
    check, [stepOnce] replaces the distribution [p] by [multRowVecMat p P] and
    adds exactly one to the step counter.  On the weather preset from
    [p0 = [1,0]] the first step gives [0.8, 0.2] and the second [0.72, 0.28]:
    exactly so in exact arithmetic; in binary64 the first step is exactly
    [0.8, 0.2] and the second is [0.72, 0.28] up to the last place (their
    [l1] distance is below 1e-15). *)
Theorem step_propagates_distribution :
  (forall (R : Type) (N : JsNumber R) (d : dom R) (s : state R),
      isRowStochastic (P (syncFromInputs d s)) lit1e_9 = true ->
      p (stepOnce d s) = multRowVecMat (p s) (P (syncFromInputs d s)) /\
      stepIdx (stepOnce d s) = stepIdx s + 1) /\
  (let s0 := ExactPresets.weatherPage in
   let d := ExactPresets.weatherInputs in
   let s1 := stepOnce d s0 in
   let s2 := stepOnce d s1 in
   p s0 = [Exact.dec 1 1; Exact.dec 0 1] /\ stepIdx s0 = 0 /\
   p s1 = [Exact.dec 8 10; Exact.dec 2 10] /\ stepIdx s1 = 1 /\
   p s2 = [Exact.dec 72 100; Exact.dec 28 100] /\ stepIdx s2 = 2) /\
  (let s0 := FloatPresets.weatherPage in
   let d := FloatPresets.weatherInputs in
   let s1 := stepOnce d s0 in
   let s2 := stepOnce d s1 in
   p s0 = [1; 0]%float /\ stepIdx s0 = 0 /\
   p s1 = [0.8; 0.2]%float /\ stepIdx s1 = 1 /\
   PrimFloat.ltb (l1 (p s2) [0.72; 0.28]%float) 1e-15%float = true /\
   stepIdx s2 = 2).
Proof.
  split; [|split].
  - intros R N d s Hok. rewrite (stepOnce_valid d s Hok). split; reflexivity.
  - cbv zeta. repeat split; try (apply Qc_vec_eq); vm_compute; reflexivity.
  - cbv zeta. repeat split; vm_compute; reflexivity.
Qed.

(** The hypothesis of C1 holds on the weather preset, and the step it grants
    is the one computed there. *)
Lemma step_propagates_distribution_witness :
  isRowStochastic
    (P (syncFromInputs FloatPresets.weatherInputs FloatPresets.weatherPage))
    lit1e_9 = true /\
  p (stepOnce FloatPresets.weatherInputs FloatPresets.weatherPage) =
  multRowVecMat (p FloatPresets.weatherPage)
    (P (syncFromInputs FloatPresets.weatherInputs FloatPresets.weatherPage)) /\
  stepIdx (stepOnce FloatPresets.weatherInputs FloatPresets.weatherPage) =
  stepIdx FloatPresets.weatherPage + 1.
Proof.
  split.
  - vm_compute. reflexivity.
  - apply (proj1 step_propagates_distribution). vm_compute. reflexivity.
Defined.

(** ** The invalid-matrix path *)

(** C2.  Whenever the matrix read from the inputs fails the row-stochastic
    check, [stepOnce] and [onComputeStationary] both append the invalid-matrix
    warning to the analysis box and leave [p], [stepIdx], [running] and
    [timer] as they were.  The matrix [[0.5,0.6],[0.4,0.6]] fails the check at
    both carriers, whatever the session distribution and step counter. *)
Theorem invalid_matrix_leaves_session :
  (forall (R : Type) (N : JsNumber R) (d : dom R) (s : state R),
      isRowStochastic (P (syncFromInputs d s)) lit1e_9 = false ->
      forall s', s' = stepOnce d s \/ s' = onComputeStationary d s ->
      p s' = p s /\ stepIdx s' = stepIdx s /\
      running s' = running s /\ timer s' = timer s /\
      analysis s' = analysis s ++ [Text (mark Warn ++ invalidMatrix)%string]) /\
  (forall (v : list Qc) (t : nat),
      let s := mkState ["A"; "B"]%string ExactPresets.invalid v false None t v [] in
      isRowStochastic (P (syncFromInputs (shown s lit0) s)) lit1e_9 = false) /\
  (forall (v : list float) (t : nat),
      let s := mkState ["A"; "B"]%string FloatPresets.invalid v false None t v [] in
      isRowStochastic (P (syncFromInputs (shown s lit0) s)) lit1e_9 = false).
Proof.
  split; [|split].
  - intros R N d s Hbad s' [-> | ->].
    + rewrite (stepOnce_invalid d s Hbad). repeat split.
    + rewrite (onComputeStationary_invalid d s Hbad). repeat split.
  - intros v t. vm_compute. reflexivity.
  - intros v t. vm_compute. reflexivity.
Qed.

(** The invalid preset at binary64, with a session at step 5. *)
Lemma invalid_matrix_leaves_session_witness :
  isRowStochastic
    (P (syncFromInputs FloatPresets.invalidInputs FloatPresets.invalidPage))
    lit1e_9 = false /\
  p (stepOnce FloatPresets.invalidInputs FloatPresets.invalidPage)
  = [0.3; 0.7]%float /\
  stepIdx (stepOnce FloatPresets.invalidInputs FloatPresets.invalidPage) = 5 /\
  p (onComputeStationary FloatPresets.invalidInputs FloatPresets.invalidPage)
  = [0.3; 0.7]%float /\
  stepIdx (onComputeStationary FloatPresets.invalidInputs FloatPresets.invalidPage) = 5.
Proof.
  assert (Hbad : isRowStochastic
                   (P (syncFromInputs FloatPresets.invalidInputs FloatPresets.invalidPage))
                   lit1e_9 = false)
    by (vm_compute; reflexivity).
  split; [exact Hbad|].
  pose proof (proj1 invalid_matrix_leaves_session float _
                FloatPresets.invalidInputs FloatPresets.invalidPage Hbad) as K.
  destruct (K _ (or_introl eq_refl)) as (Hp & Ht & _).
  destruct (K _ (or_intror eq_refl)) as (Hp' & Ht' & _).
  repeat split; assumption.
Defined.

(** ** The comparisons of the exact carrier are the mathematical ones *)

Lemma exact_lt_iff (a b : Qc) : Exact.ltb a b = true <-> (a < b)%Qc.
Proof.
  unfold Exact.ltb. change (a ?= b)%Qc with (this a ?= this b)%Q.
  change (a < b)%Qc with (this a < this b)%Q. rewrite Qlt_alt.
  destruct (this a ?= this b)%Q; split; intro K;
    try discriminate; reflexivity.
Qed.

Lemma exact_lt_false_iff (a b : Qc) : Exact.ltb a b = false <-> (b <= a)%Qc.
Proof.
  split; intro K.
  - apply Qcnot_lt_le. intro L. apply exact_lt_iff in L. congruence.
  - destruct (Exact.ltb a b) eqn:E; [|reflexivity].
    apply exact_lt_iff in E. exfalso. exact (Qcle_not_lt _ _ K E).
Qed.

Lemma exact_le_iff (a b : Qc) : Exact.leb a b = true <-> (a <= b)%Qc.
Proof.
  unfold Exact.leb. change (a ?= b)%Qc with (this a ?= this b)%Q.
  change (a <= b)%Qc with (this a <= this b)%Q. rewrite Qle_alt.
  destruct (this a ?= this b)%Q; split; intro K;
    try discriminate; try reflexivity.
  exfalso. apply K. reflexivity.
Qed.

(** ** The row-stochastic check *)

Section ValidatorFacts.

Context {R : Type} `{JsNumber R}.

Lemma isRowStochastic_false (M : list (list R)) (tol : R) :
  isRowStochastic M tol = false <-> exists row, In row M /\ rowRejected tol row.
Proof.
  induction M as [|row M IH]; simpl.
  - split; [discriminate | intros (r & [] & _)].
  - destruct (existsb (fun x => lt x (neg lit1e_12)) row) eqn:Eneg.
    + split; [intros _ | reflexivity].
      exists row. split; [now left|]. left.
      apply existsb_exists in Eneg. exact Eneg.
    + destruct (lt tol (abs (sub (rowSum row) lit1))) eqn:Esum.
      * split; [intros _ | reflexivity].
        exists row. split; [now left|]. right. exact Esum.
      * rewrite IH. split.
        -- intros (r & Hin & Hr). exists r. split; [now right | exact Hr].
        -- intros (r & [<- | Hin] & Hr).
           ++ destruct Hr as [Hex | Hs]; [|congruence].
              apply existsb_exists in Hex. congruence.
           ++ exists r. split; assumption.
Qed.

Lemma handlers_keep_matrix (d : dom R) (s : state R) :
  P (stepOnce d s) = P (syncFromInputs d s) /\
  P (onComputeStationary d s) = P (syncFromInputs d s).
Proof.
  unfold stepOnce, onComputeStationary.
  destruct (isRowStochastic (P (syncFromInputs d s)) lit1e_9); split; reflexivity.
Qed.

End ValidatorFacts.

(** C5.  [isRowStochastic P tol] is [false] exactly when some row of [P] has
    an entry below [-1e-12] or a sum [s] with [|s - 1| > tol], the comparisons
    being those of JavaScript numbers at any carrier and the mathematical ones
    in exact arithmetic.  The check is a function of [P] and [tol] alone: its
    result does not depend on the page, and the handlers that call it leave
    the matrix they checked in place. *)
Theorem isRowStochastic_spec :
  (forall (R : Type) (N : JsNumber R) (M : list (list R)) (tol : R),
      isRowStochastic M tol = false <-> exists row, In row M /\ rowRejected tol row) /\
  (forall (M : list (list Qc)) (tol : Qc),
      isRowStochastic M tol = false <->
      exists row, In row M /\
        ((exists x, In x row /\ (x < - Exact.dec 1 1000000000000)%Qc) \/
         (tol < Qcabs (rowSum row - Exact.dec 1 1))%Qc)) /\
  (forall (R : Type) (N : JsNumber R) (d : dom R) (s : state R),
      P (stepOnce d s) = P (syncFromInputs d s) /\
      P (onComputeStationary d s) = P (syncFromInputs d s)).
Proof.
  split; [|split].
  - intros R N M tol. apply isRowStochastic_false.
  - intros M tol. rewrite isRowStochastic_false. unfold rowRejected.
    split; intros (row & Hin & Hr); exists row; (split; [exact Hin|]).
    + destruct Hr as [(x & Hx & Hlt) | Hs].
      * left. exists x. split; [exact Hx|]. apply exact_lt_iff. exact Hlt.
      * right. apply exact_lt_iff. exact Hs.
    + destruct Hr as [(x & Hx & Hlt) | Hs].
      * left. exists x. split; [exact Hx|]. apply exact_lt_iff. exact Hlt.
      * right. apply exact_lt_iff. exact Hs.
  - intros R N d s. apply handlers_keep_matrix.
Qed.

(** ** Absorbing states *)

Section AbsorbingFacts.

Context {R : Type} `{JsNumber R}.

Lemma isAbs_true (M : list (list R)) (tol : R) (i : nat) (js : list nat) :
  isAbs M tol i js = true <-> forall j, In j js -> offIdentity M tol i j = false.
Proof.
  induction js as [|j js IH]; simpl.
  - split; [intros _ j [] | reflexivity].
  - fold (offIdentity M tol i j).
    destruct (offIdentity M tol i j) eqn:E.
    + split; [discriminate|]. intro K.
      rewrite (K j (or_introl eq_refl)) in E. discriminate.
    + rewrite IH. split.
      * intros K j' [<- | Hin]; [exact E | now apply K].
      * intros K j' Hin. apply K. now right.
Qed.

Lemma absorbingStates_In (M : list (list R)) (tol : R) (i : nat) :
  In i (absorbingStates M tol) <->
  i < length M /\ forall j, j < length M -> offIdentity M tol i j = false.
Proof.
  unfold absorbingStates. rewrite filter_In, in_seq, isAbs_true.
  split; intros [Hi K]; (split; [lia|]); intros j Hj; apply K.
  - apply in_seq. lia.
  - apply in_seq in Hj. lia.
Qed.

Lemma nth_map_seq (A : Type) (g : nat -> A) (n i : nat) (d : A) :
  i < n -> nth i (map g (seq 0 n)) d = g i.
Proof.
  intro Hi. rewrite (nth_indep _ d (g 0)) by (rewrite length_map, length_seq; exact Hi).
  rewrite map_nth, seq_nth by exact Hi. reflexivity.
Qed.

Lemma filter_all (A : Type) (f : A -> bool) (l : list A) :
  (forall x, In x l -> f x = true) -> filter f l = l.
Proof.
  induction l as [|x l IH]; intro K; simpl; [reflexivity|].
  rewrite (K x (or_introl eq_refl)). f_equal. apply IH.
  intros y Hy. apply K. now right.
Qed.

Lemma absorbingStates_identity (tol : R) (n : nat) :
  lt tol (abs (sub lit1 lit1)) = false ->
  lt tol (abs (sub lit0 lit0)) = false ->
  absorbingStates (identity n) tol = seq 0 n.
Proof.
  intros H1 H0. unfold absorbingStates.
  assert (Hlen : length (identity n) = n)
    by (unfold identity; rewrite length_map, length_seq; reflexivity).
  rewrite Hlen. apply filter_all. intros i Hi. apply in_seq in Hi.
  apply isAbs_true. intros j Hj. apply in_seq in Hj.
  unfold offIdentity, at_, rowAt, identity.
  rewrite nth_map_seq by lia. rewrite nth_map_seq by lia.
  destruct (Nat.eqb i j); assumption.
Qed.

End AbsorbingFacts.

(** C6.  For an [n]x[n] matrix [P] and an index [i < n], [i] is among
    [absorbingStates P tol] exactly when [|P[i][j] - (1 if i = j else 0)| <= tol]
    for every column [j]; nothing outside [0 .. n-1] is ever returned.  At any
    carrier the test is the one the loop makes: no column [j] has
    [|P[i][j] - expected| > tol].  With the default tolerance 1e-12 the
    identity matrix of any size yields all its indices, and the absorbing
    preset yields exactly the indices 1 and 2, in exact arithmetic and in
    binary64. *)
Theorem absorbingStates_spec :
  (forall (M : list (list Qc)) (tol : Qc) (i : nat),
      Forall (fun row => length row = length M) M ->
      (In i (absorbingStates M tol) -> i < length M) /\
      (i < length M ->
       (In i (absorbingStates M tol) <->
        forall j, j < length M ->
          (Qcabs (at_ (rowAt M i) j - (if Nat.eqb i j then Exact.dec 1 1 else Exact.dec 0 1))
           <= tol)%Qc))) /\
  (forall (R : Type) (N : JsNumber R) (M : list (list R)) (tol : R) (i : nat),
      In i (absorbingStates M tol) <->
      i < length M /\
      forall j, j < length M ->
        lt tol (abs (sub (at_ (rowAt M i) j)
                         (if Nat.eqb i j then lit1 else lit0))) = false) /\
  (forall n : nat, absorbingStates (identity (R := Qc) n) lit1e_12 = seq 0 n) /\
  (forall n : nat, absorbingStates (identity (R := float) n) lit1e_12 = seq 0 n) /\
  absorbingStates ExactPresets.absorbing lit1e_12 = [1; 2] /\
  absorbingStates FloatPresets.absorbing lit1e_12 = [1; 2].
Proof.
  split; [|split; [|split; [|split; [|split]]]].
  - intros M tol i _. split.
    + intro Hin. apply absorbingStates_In in Hin. tauto.
    + intro Hi. rewrite absorbingStates_In. split.
      * intros [_ K] j Hj. apply exact_lt_false_iff. exact (K j Hj).
      * intro K. split; [exact Hi|]. intros j Hj.
        apply exact_lt_false_iff. exact (K j Hj).
  - intros R N M tol i. apply absorbingStates_In.
  - intro n. apply absorbingStates_identity; vm_compute; reflexivity.
  - intro n. apply absorbingStates_identity; vm_compute; reflexivity.
  - vm_compute. reflexivity.
  - vm_compute. reflexivity.
Qed.

(** The absorbing preset is square, and its row 1 is an identity row. *)
Lemma absorbingStates_spec_witness :
  Forall (fun row => length row = length ExactPresets.absorbing) ExactPresets.absorbing /\
  (In 1 (absorbingStates ExactPresets.absorbing lit1e_12) <->
   forall j, j < length ExactPresets.absorbing ->
     (Qcabs (at_ (rowAt ExactPresets.absorbing 1) j
             - (if Nat.eqb 1 j then Exact.dec 1 1 else Exact.dec 0 1))
      <= lit1e_12)%Qc).
Proof.
  assert (Hsq : Forall (fun row => length row = length ExactPresets.absorbing)
                       ExactPresets.absorbing)
    by (repeat constructor).
  split; [exact Hsq|].
  apply (proj1 absorbingStates_spec ExactPresets.absorbing lit1e_12 1 Hsq).
  simpl. lia.
Defined.

(** ** The power method *)

Section PowerFacts.

Context {R : Type} `{JsNumber R}.

Lemma iterate_shift (M : list (list R)) (v : list R) (k : nat) :
  iterate M (multRowVecMat v M) k = iterate M v (S k).
Proof. unfold iterate. symmetry. apply Nat.iter_succ_r. Qed.

Lemma closeAt_shift (M : list (list R)) (tol : R) (v : list R) (k : nat) :
  closeAt M tol (multRowVecMat v M) k = closeAt M tol v (S k).
Proof. unfold closeAt. rewrite !iterate_shift. reflexivity. Qed.

Lemma powerLoop_converged (M : list (list R)) (tol : R) (m : nat) :
  forall (v : list R) (k : nat),
    k < m ->
    (forall i, i < k -> closeAt M tol v i = false) ->
    closeAt M tol v k = true ->
    powerLoop M tol m v = iterate M v (S k).
Proof.
  induction m as [|m IH]; intros v k Hk Hbefore Hat; [lia|].
  simpl. destruct k as [|k].
  - unfold closeAt in Hat. simpl in Hat. rewrite Hat. reflexivity.
  - pose proof (Hbefore 0 (Nat.lt_0_succ k)) as H0.
    unfold closeAt in H0. simpl in H0. rewrite H0.
    rewrite (IH (multRowVecMat v M) k).
    + apply iterate_shift.
    + lia.
    + intros i Hi. rewrite closeAt_shift. apply Hbefore. lia.
    + rewrite closeAt_shift. exact Hat.
Qed.

Lemma powerLoop_exhausted (M : list (list R)) (tol : R) (m : nat) :
  forall v : list R,
    (forall i, i < m -> closeAt M tol v i = false) ->
    powerLoop M tol m v = iterate M v m.
Proof.
  induction m as [|m IH]; intros v Hnever; [reflexivity|].
  simpl. pose proof (Hnever 0 (Nat.lt_0_succ m)) as H0.
  unfold closeAt in H0. simpl in H0. rewrite H0.
  rewrite IH.
  - apply iterate_shift.
  - intros i Hi. rewrite closeAt_shift. apply Hnever. lia.
Qed.

End PowerFacts.

(** C4.  [stationaryDistribution P tol maxIter] iterates [pi' = pi P] from the
    uniform vector [(1/n, ..., 1/n)]: it returns the first iterate [pi'] with
    [l1(pi', pi) < tol] when there is one among the first [maxIter], and the
    [maxIter]-th iterate otherwise.  It is a total function to vectors: no
    outcome is an error.  [onComputeStationary] calls it with [tol = 1e-10]
    and [maxIter = 20000] and reports its result with the residual
    [l1(pi P, pi)]. *)
Theorem stationaryDistribution_spec :
  forall (R : Type) (N : JsNumber R) (M : list (list R)) (tol : R) (maxIter : nat),
    let n := length M in
    let pi := iterate M (uniform n) in
    pi 0 = repeat (div lit1 (ofNat n)) n /\
    (forall k, pi (S k) = multRowVecMat (pi k) M) /\
    (forall k, k < maxIter ->
       (forall i, i < k -> lt (l1 (pi (S i)) (pi i)) tol = false) ->
       lt (l1 (pi (S k)) (pi k)) tol = true ->
       stationaryDistribution M tol maxIter = pi (S k)) /\
    ((forall i, i < maxIter -> lt (l1 (pi (S i)) (pi i)) tol = false) ->
     stationaryDistribution M tol maxIter = pi maxIter) /\
    (forall (d : dom R) (s : state R),
       P (syncFromInputs d s) = M ->
       isRowStochastic M lit1e_9 = true ->
       let r := stationaryDistribution M lit1e_10 (20 * 1000) in
       analysis (onComputeStationary d s) =
       analysis s ++ [StationaryReport r (l1 (multRowVecMat r M) r)]).
Proof.
  intros R N M tol maxIter n pi. repeat split.
  - intros k Hk Hbefore Hat.
    exact (@powerLoop_converged _ _ M tol maxIter (uniform n) k Hk Hbefore Hat).
  - intro Hnever. exact (@powerLoop_exhausted _ _ M tol maxIter (uniform n) Hnever).
  - intros d s HM Hok. unfold onComputeStationary. rewrite HM, Hok. reflexivity.
Qed.

(** On the weather preset in exact arithmetic the first two iterates are not
    within 1e-10 of their predecessors, so two iterations return the second
    iterate [(16/25, 9/25)]; with [P] the 2x2 identity the first iterate
    already passes the test. *)
Lemma stationaryDistribution_spec_witness :
  stationaryDistribution ExactPresets.weather lit1e_10 2 =
  [Exact.dec 64 100; Exact.dec 36 100] /\
  stationaryDistribution (identity (R := Qc) 2) lit1e_10 5 =
  [Exact.dec 1 2; Exact.dec 1 2].
Proof.
  split.
  - destruct (@stationaryDistribution_spec Qc _ ExactPresets.weather lit1e_10 2)
      as (_ & _ & _ & Hexhausted & _).
    rewrite Hexhausted.
    + apply Qc_vec_eq. vm_compute. reflexivity.
    + intros i Hi. destruct i as [|[|i]]; [vm_compute; reflexivity .. | lia].
  - destruct (@stationaryDistribution_spec Qc _ (identity (R := Qc) 2) lit1e_10 5)
      as (_ & _ & Hconverged & _).
    rewrite (Hconverged 0).
    + apply Qc_vec_eq. vm_compute. reflexivity.
    + lia.
    + intros i Hi. lia.
    + vm_compute. reflexivity.
Defined.

(** ** Sums in exact arithmetic *)

Section ExactAlgebra.

Local Open Scope Qc_scope.

Lemma exact_fold_acc (l : list Qc) (a : Qc) :
  fold_left Qcplus l a = a + fold_left Qcplus l 0.
Proof.
  revert a. induction l as [|x l IH]; intro a; simpl.
  - ring.
  - rewrite (IH (a + x)), (IH (0 + x)). ring.
Qed.

Lemma exact_rowSum_cons (x : Qc) (l : list Qc) : rowSum (x :: l) = x + rowSum l.
Proof.
  unfold rowSum. simpl. rewrite exact_fold_acc. f_equal. ring.
Qed.

Lemma exact_rowSum_scaled (s : Qc) (row : list Qc) :
  rowSum (map (fun x => x / s) row) = rowSum row / s.
Proof.
  induction row as [|x row IH].
  - unfold rowSum. simpl. unfold Qcdiv. ring.
  - simpl map. rewrite !exact_rowSum_cons, IH. unfold Qcdiv. ring.
Qed.

Lemma exact_rowSum_zeros (A : Type) (l : list A) :
  rowSum (map (fun _ => 0) l) = 0.
Proof.
  induction l as [|x l IH]; [reflexivity|].
  simpl map. rewrite exact_rowSum_cons, IH. ring.
Qed.

Lemma exact_rowSum_plus (A : Type) (f g : A -> Qc) (l : list A) :
  rowSum (map (fun k => f k + g k) l) = rowSum (map f l) + rowSum (map g l).
Proof.
  induction l as [|x l IH]; simpl map.
  - unfold rowSum. simpl. ring.
  - rewrite !exact_rowSum_cons, IH. ring.
Qed.

Lemma exact_rowSum_times (A : Type) (c : Qc) (g : A -> Qc) (l : list A) :
  rowSum (map (fun k => c * g k) l) = c * rowSum (map g l).
Proof.
  induction l as [|x l IH]; simpl map.
  - unfold rowSum. simpl. ring.
  - rewrite !exact_rowSum_cons, IH. ring.
Qed.

(** Exchanging the two sums of [sum_j sum_k f j k]. *)
Lemma exact_rowSum_swap (A B : Type) (f : A -> B -> Qc) (js : list A) (ks : list B) :
  rowSum (map (fun j => rowSum (map (f j) ks)) js) =
  rowSum (map (fun k => rowSum (map (fun j => f j k) js)) ks).
Proof.
  induction js as [|j js IH]; simpl map.
  - rewrite exact_rowSum_zeros. reflexivity.
  - rewrite exact_rowSum_cons, IH.
    rewrite <- exact_rowSum_plus. f_equal. apply map_ext. intro k.
    rewrite exact_rowSum_cons. reflexivity.
Qed.

End ExactAlgebra.

Section IndexFacts.

Context {R : Type} `{JsNumber R}.

Lemma fold_left_terms (A : Type) (f : A -> R) (l : list A) (a : R) :
  fold_left (fun sum k => add sum (f k)) l a = fold_left add (map f l) a.
Proof.
  revert a. induction l as [|x l IH]; intro a; simpl; [reflexivity | apply IH].
Qed.

Lemma dotColumn_rowSum (v : list R) (M : list (list R)) (n j : nat) :
  dotColumn v M n j =
  rowSum (map (fun k => mul (at_ v k) (at_ (rowAt M k) j)) (seq 0 n)).
Proof. unfold dotColumn, rowSum. apply fold_left_terms. Qed.

Lemma at_all (v : list R) : map (at_ v) (seq 0 (length v)) = v.
Proof.
  apply (nth_ext _ _ NaN NaN).
  - rewrite length_map, length_seq. reflexivity.
  - intros i Hi. rewrite length_map, length_seq in Hi.
    rewrite (nth_indep _ NaN (at_ v 0)) by (rewrite length_map, length_seq; exact Hi).
    rewrite map_nth, seq_nth by exact Hi. reflexivity.
Qed.

Lemma at_map (f : R -> R) (v : list R) (i : nat) :
  i < length v -> at_ (map f v) i = f (at_ v i).
Proof.
  intro Hi. unfold at_.
  rewrite (nth_indep _ NaN (f NaN)) by (rewrite length_map; exact Hi).
  apply map_nth.
Qed.

Lemma rowSum_zeros (n : nat) :
  add lit0 lit0 = lit0 -> rowSum (repeat lit0 n) = lit0.
Proof.
  intro H0. unfold rowSum.
  induction n as [|n IH]; simpl; [reflexivity|]. rewrite H0. exact IH.
Qed.

Lemma normalizeRow_cases (row : list R) :
  (le (rowSum row) lit0 = false ->
   normalizeRow row = map (fun x => div x (rowSum row)) row) /\
  (le (rowSum row) lit0 = true ->
   normalizeRow row = repeat lit0 (length row)).
Proof.
  unfold normalizeRow. split; intros ->; [reflexivity | apply map_const].
Qed.

Lemma normalizeRow_zeros (n : nat) :
  add lit0 lit0 = lit0 -> le lit0 lit0 = true ->
  normalizeRow (repeat lit0 n) = repeat lit0 n.
Proof.
  intros H0 Hle.
  destruct (normalizeRow_cases (repeat lit0 n)) as [_ K].
  rewrite K, repeat_length; [reflexivity|].
  rewrite rowSum_zeros by exact H0. exact Hle.
Qed.

End IndexFacts.

(** ** Row normalisation *)

(** In binary64 a finite number divided by [+Infinity] is a zero. *)
Lemma binary64_div_infinity (x : float) :
  Binary64.finite x = true ->
  (x / infinity = 0 \/ x / infinity = -0)%float.
Proof.
  intro Hfin.
  pose proof (FloatAxioms.div_spec x infinity) as Hdiv.
  pose proof (SF2Prim_Prim2SF x) as Hx.
  pose proof (SF2Prim_Prim2SF (x / infinity)) as Hq.
  change (Prim2SF infinity) with (S754_infinity false) in Hdiv.
  destruct (Prim2SF x) as [s|s| |s m e].
  - rewrite Hdiv in Hq. destruct s; [right | left]; symmetry; exact Hq.
  - rewrite <- Hx in Hfin. destruct s; vm_compute in Hfin; discriminate.
  - rewrite <- Hx in Hfin. vm_compute in Hfin. discriminate.
  - rewrite Hdiv in Hq. destruct s; [right | left]; symmetry; exact Hq.
Qed.

(** In binary64 zeros of either sign add up to [+0]. *)
Lemma binary64_zero_sum (l : list float) :
  Forall (fun y => y = 0 \/ y = -0)%float l ->
  rowSum l = 0%float.
Proof.
  unfold rowSum.
  induction 1 as [|y l [-> | ->] _ IH]; simpl;
    [reflexivity | exact IH | exact IH].
Qed.

(** C7.  [normalizeRow] divides every entry by the row sum [s] unless
    [s <= 0], and then returns as many zeros as the row has entries; it never
    fails.  In exact arithmetic, when [s > 0] the result sums to one and the
    ratio of any two entries is that of the row; when [s <= 0], and in
    particular for the all-zero row of any length, the result is all zeros.
    In binary64 the all-zero row of any length likewise gives all zeros, the
    row [1, 3] gives exactly [0.25, 0.75], and the normalised [0.1, 0.2, 0.3]
    sums to one up to the last place.  But in binary64 the sum of finite
    entries can overflow: whenever it is [+Infinity], which is [> 0], the
    entries are still divided by it, every one of them becomes a zero, and
    the result sums to zero instead of one. *)
Theorem normalizeRow_spec :
  (forall (R : Type) (N : JsNumber R) (row : list R),
      (le (rowSum row) lit0 = false ->
       normalizeRow row = map (fun x => div x (rowSum row)) row) /\
      (le (rowSum row) lit0 = true ->
       normalizeRow row = repeat lit0 (length row))) /\
  (forall row : list Qc,
      (0 < rowSum row)%Qc ->
      normalizeRow row = map (fun x => x / rowSum row)%Qc row /\
      rowSum (normalizeRow row) = 1%Qc /\
      forall i j, i < length row -> j < length row ->
        (at_ (normalizeRow row) i * at_ row j =
         at_ (normalizeRow row) j * at_ row i)%Qc /\
        (at_ row j <> 0%Qc ->
         (at_ (normalizeRow row) i / at_ (normalizeRow row) j =
          at_ row i / at_ row j)%Qc)) /\
  (forall row : list Qc,
      (rowSum row <= 0)%Qc -> normalizeRow row = repeat 0%Qc (length row)) /\
  (forall n : nat, normalizeRow (repeat 0%Qc n) = repeat 0%Qc n) /\
  (forall n : nat, normalizeRow (repeat 0%float n) = repeat 0%float n) /\
  normalizeRow [1; 3]%float = [0.25; 0.75]%float /\
  PrimFloat.ltb
    (PrimFloat.abs (rowSum (normalizeRow [0.1; 0.2; 0.3]%float) - 1))
    1e-15%float = true /\
  (forall row : list float,
      Forall (fun x => isFinite x = true) row ->
      rowSum row = infinity ->
      lt lit0 (rowSum row) = true /\
      normalizeRow row = map (fun x => div x (rowSum row)) row /\
      Forall (fun y => y = 0 \/ y = -0)%float (normalizeRow row) /\
      rowSum (normalizeRow row) = 0%float).
Proof.
  split; [|split; [|split; [|split; [|split; [|split; [|split]]]]]].
  - intros R N row. apply normalizeRow_cases.
  - intros row Hpos.
    assert (Hne : rowSum row <> 0%Qc).
    { intro E. rewrite E in Hpos. exact (Qclt_not_eq _ _ Hpos eq_refl). }
    assert (Hle : le (rowSum row) lit0 = false).
    { destruct (le (rowSum row) lit0) eqn:E; [|reflexivity].
      apply exact_le_iff in E. exfalso. exact (Qcle_not_lt _ _ E Hpos). }
    destruct (normalizeRow_cases row) as [Hdiv _]. specialize (Hdiv Hle).
    change (normalizeRow row = map (fun x => x / rowSum row)%Qc row) in Hdiv.
    split; [exact Hdiv|]. rewrite Hdiv. split.
    + rewrite exact_rowSum_scaled. field. exact Hne.
    + intros i j Hi Hj.
      rewrite !(at_map (fun x => x / rowSum row)%Qc) by assumption.
      split; [field; exact Hne|]. intro Hj0. field. split; assumption.
  - intros row Hle. apply exact_le_iff in Hle.
    destruct (normalizeRow_cases row) as [_ K]. exact (K Hle).
  - intro n. refine (@normalizeRow_zeros Qc _ n _ _); vm_compute; reflexivity.
  - intro n. refine (@normalizeRow_zeros float _ n _ _); vm_compute; reflexivity.
  - vm_compute. reflexivity.
  - vm_compute. reflexivity.
  - intros row Hfin Hinf.
    assert (Hlt : lt lit0 (rowSum row) = true)
      by (rewrite Hinf; vm_compute; reflexivity).
    assert (Hle : le (rowSum row) lit0 = false)
      by (rewrite Hinf; vm_compute; reflexivity).
    destruct (normalizeRow_cases row) as [Hdiv _]. specialize (Hdiv Hle).
    assert (Hzero : Forall (fun y => y = 0 \/ y = -0)%float (normalizeRow row)).
    { rewrite Hdiv, Hinf. apply Forall_map.
      revert Hfin. apply Forall_impl. intros x Hx.
      exact (binary64_div_infinity x Hx). }
    split; [exact Hlt|]. split; [exact Hdiv|]. split; [exact Hzero|].
    apply binary64_zero_sum. exact Hzero.
Qed.

(** The row [1, 3] in exact arithmetic: its sum is positive, the result sums
    to one, and its two entries are in the ratio 1 : 3.  The binary64 row
    [1.5e308, 1e308, 0.5]: its entries are finite, its sum is [+Infinity],
    and the result sums to zero. *)
Lemma normalizeRow_spec_witness :
  ((0 < rowSum [Exact.dec 1 1; Exact.dec 3 1])%Qc /\
   rowSum (normalizeRow [Exact.dec 1 1; Exact.dec 3 1]) = 1%Qc /\
   (at_ (normalizeRow [Exact.dec 1 1; Exact.dec 3 1]) 0 /
    at_ (normalizeRow [Exact.dec 1 1; Exact.dec 3 1]) 1 =
    Exact.dec 1 1 / Exact.dec 3 1)%Qc) /\
  (Forall (fun x => isFinite x = true) [1.5e308; 1e308; 0.5]%float /\
   rowSum [1.5e308; 1e308; 0.5]%float = infinity /\
   rowSum (normalizeRow [1.5e308; 1e308; 0.5]%float) = 0%float).
Proof.
  split.
  - assert (Hpos : (0 < rowSum [Exact.dec 1 1; Exact.dec 3 1])%Qc)
      by (apply exact_lt_iff; vm_compute; reflexivity).
    split; [exact Hpos|].
    destruct (proj1 (proj2 normalizeRow_spec) _ Hpos) as (_ & Hsum & Hratio).
    split; [exact Hsum|].
    apply (proj2 (Hratio 0 1 (Nat.lt_0_2) (Nat.lt_1_2))).
    intro E. apply (f_equal this) in E. vm_compute in E. discriminate.
  - assert (Hfin : Forall (fun x => isFinite x = true)
                     [1.5e308; 1e308; 0.5]%float)
      by (repeat constructor).
    assert (Hinf : rowSum [1.5e308; 1e308; 0.5]%float = infinity)
      by (vm_compute; reflexivity).
    split; [exact Hfin|]. split; [exact Hinf|].
    apply (proj2 (proj2 (proj2 (proj2 (proj2 (proj2 (proj2
             normalizeRow_spec)))))) _ Hfin Hinf).
Defined.

(** C7 as it is worded fails in binary64.  The row [1e308, 1e308] has finite
    entries that are not below zero and its sum [s] is [+Infinity], so
    [s > 0]; every entry is divided by [s] and the result is [0, 0].  It sums
    to zero, at distance one from one, and the ratio of its two entries is
    [0/0], not a number, where the row's is one.  The page reaches this row:
    entering [1e308] in both cells of the first row of the weather matrix and
    pressing Normalize Rows leaves the matrix [[0, 0], [0.4, 0.6]], which
    [isRowStochastic] rejects. *)
Lemma normalizeRow_overflow :
  Forall (fun x => isFinite x = true /\ le lit0 x = true) overflowRow /\
  rowSum overflowRow = infinity /\
  lt lit0 (rowSum overflowRow) = true /\
  normalizeRow overflowRow =
    map (fun x => div x (rowSum overflowRow)) overflowRow /\
  normalizeRow overflowRow = [0; 0]%float /\
  rowSum (normalizeRow overflowRow) = 0%float /\
  abs (sub (rowSum (normalizeRow overflowRow)) lit1) = 1%float /\
  PrimFloat.eqb (at_ overflowRow 0 / at_ overflowRow 1) 1 = true /\
  PrimFloat.is_nan
    (at_ (normalizeRow overflowRow) 0 / at_ (normalizeRow overflowRow) 1) =
    true /\
  option_map (fun s => P (normalizeRows s)) overflowPage =
    Some [[0; 0]; [0.4; 0.6]]%float /\
  option_map (fun s => isRowStochastic (P (normalizeRows s)) lit1e_9)
             overflowPage = Some false.
Proof.
  split; [repeat constructor|].
  repeat split; vm_compute; reflexivity.
Qed.

(** ** Conservation of probability mass *)

Lemma exact_multRowVecMat_sum (v : list Qc) (M : list (list Qc)) :
  length v = length M ->
  Forall (fun row => length row = length M) M ->
  Forall (fun row => rowSum row = 1%Qc) M ->
  rowSum (multRowVecMat v M) = rowSum v.
Proof.
  intros Hv Hsq Hone. unfold multRowVecMat.
  set (n := length M).
  rewrite (map_ext _ _ (fun j => dotColumn_rowSum v M n j)).
  rewrite (exact_rowSum_swap _ _
             (fun j k => mul (at_ v k) (at_ (rowAt M k) j)) (seq 0 n) (seq 0 n)).
  transitivity (rowSum (map (at_ v) (seq 0 n))).
  2: { unfold n. rewrite <- Hv, at_all. reflexivity. }
  f_equal. apply map_ext_in. intros k Hk. apply in_seq in Hk.
  change (fun j => mul (at_ v k) (at_ (rowAt M k) j))
    with (fun j => (at_ v k * at_ (rowAt M k) j)%Qc).
  rewrite exact_rowSum_times.
  assert (Hrow : In (rowAt M k) M) by (apply nth_In; unfold n in Hk; lia).
  rewrite Forall_forall in Hsq, Hone.
  pose proof (at_all (rowAt M k)) as Hall.
  rewrite (Hsq _ Hrow) in Hall. fold n in Hall.
  rewrite Hall, (Hone _ Hrow). ring.
Qed.

(** C3.  In exact arithmetic, for an [n]x[n] matrix [P] whose rows each sum to
    one and a vector [p] of length [n], the entries of [multRowVecMat p P] sum
    to what the entries of [p] sum to; so a distribution (non-negative, of
    sum one) is sent to a vector of sum one.  In binary64 the two sums agree
    up to rounding: on the weather preset they are equal for [p = [1, 0]] and
    differ by less than 1e-15 for [p = [0.8, 0.2]]. *)
Theorem multRowVecMat_conserves_mass :
  (forall (v : list Qc) (M : list (list Qc)),
      length v = length M ->
      Forall (fun row => length row = length M) M ->
      Forall (fun row => rowSum row = 1%Qc) M ->
      rowSum (multRowVecMat v M) = rowSum v /\
      (Forall (fun x => (0 <= x)%Qc) v -> rowSum v = 1%Qc ->
       rowSum (multRowVecMat v M) = 1%Qc)) /\
  rowSum (multRowVecMat [1; 0]%float FloatPresets.weather) = rowSum [1; 0]%float /\
  PrimFloat.ltb
    (PrimFloat.abs (rowSum (multRowVecMat [0.8; 0.2]%float FloatPresets.weather)
                    - rowSum [0.8; 0.2]%float))
    1e-15%float = true.
Proof.
  split; [|split].
  - intros v M Hv Hsq Hone.
    pose proof (exact_multRowVecMat_sum v M Hv Hsq Hone) as E.
    split; [exact E|]. intros _ Hsum. rewrite E. exact Hsum.
  - vm_compute. reflexivity.
  - vm_compute. reflexivity.
Qed.

(** The weather preset in exact arithmetic, from [p = [0.8, 0.2]]. *)
Lemma multRowVecMat_conserves_mass_witness :
  rowSum (multRowVecMat [Exact.dec 8 10; Exact.dec 2 10] ExactPresets.weather) = 1%Qc.
Proof.
  refine (proj2 (proj1 multRowVecMat_conserves_mass
                   [Exact.dec 8 10; Exact.dec 2 10] ExactPresets.weather _ _ _) _ _).
  - reflexivity.
  - repeat constructor.
  - repeat constructor; apply Qc_is_canon; vm_compute; reflexivity.
  - repeat constructor; apply exact_le_iff; vm_compute; reflexivity.
  - apply Qc_is_canon. vm_compute. reflexivity.
Defined.

(** ** Adding and removing a state *)

Section ShapeFacts.

Context {R : Type} `{JsNumber R}.

Lemma setEntry_end (l : list R) (x v : R) :
  setEntry (l ++ [x]) (length l) v = Some (l ++ [v]).
Proof.
  induction l as [|y l IH]; simpl; [reflexivity|]. rewrite IH. reflexivity.
Qed.

Lemma setCell_last_row (M : list (list R)) (row : list R) (j : nat) (v : R) :
  setCell (M ++ [row]) (length M) j v =
  option_map (fun r => M ++ [r]) (setEntry row j v).
Proof.
  induction M as [|r M IH]; simpl.
  - destruct (setEntry row j v); reflexivity.
  - rewrite IH. destruct (setEntry row j v); reflexivity.
Qed.

Lemma addState_grows (s : state R) :
  length (P s) = length (labels s) ->
  addState s =
  Some (withConfig (labels s ++ [stateName (length (labels s) + 1)])
                   (grown (P s) (length (labels s)))
                   (p0 s ++ [lit0]) s).
Proof.
  intro Hrows. unfold addState, grown.
  set (n := length (labels s)).
  assert (E : setCell (map (fun row => row ++ [lit0]) (P s) ++ [repeat lit0 (n + 1)])
                      n n lit1
              = Some (map (fun row => row ++ [lit0]) (P s) ++ [repeat lit0 n ++ [lit1]])).
  { replace n with (length (map (fun row : list R => row ++ [lit0]) (P s))) at 2
      by (rewrite length_map; exact Hrows).
    rewrite setCell_last_row, repeat_app. simpl repeat.
    replace n with (length (repeat lit0 n)) at 2 by apply repeat_length.
    rewrite setEntry_end. reflexivity. }
  rewrite E. reflexivity.
Qed.

Lemma length_removelast (A : Type) (l : list A) :
  length (removelast l) = length l - 1.
Proof.
  induction l as [|x l IH]; [reflexivity|].
  destruct l as [|y l]; [reflexivity|].
  change (removelast (x :: y :: l)) with (x :: removelast (y :: l)).
  simpl length in *. rewrite IH. lia.
Qed.

Lemma In_removelast (A : Type) (x : A) (l : list A) :
  In x (removelast l) -> In x l.
Proof.
  induction l as [|y l IH]; [intros []|].
  destruct l as [|z l]; [intros []|].
  change (removelast (y :: z :: l)) with (y :: removelast (z :: l)).
  intros [<- | Hin]; [now left | right; apply IH; exact Hin].
Qed.

Lemma grown_lockStep (s : state R) :
  lockStep s ->
  lockStep (withConfig (labels s ++ [stateName (length (labels s) + 1)])
                       (grown (P s) (length (labels s)))
                       (p0 s ++ [lit0]) s).
Proof.
  intros (Hn & Hp0 & Hrows & Hsq). unfold lockStep, grown. simpl.
  rewrite !length_app, length_map. simpl. repeat split; try lia.
  apply Forall_app. split.
  - apply Forall_forall. intros r Hr. apply in_map_iff in Hr.
    destruct Hr as (row & <- & Hrow).
    rewrite Forall_forall in Hsq. rewrite length_app, (Hsq _ Hrow). reflexivity.
  - constructor; [|constructor].
    rewrite length_app, repeat_length. reflexivity.
Qed.

Lemma removeState_lockStep (s : state R) : lockStep s -> lockStep (removeState s).
Proof.
  intros (Hn & Hp0 & Hrows & Hsq). unfold removeState.
  destruct (length (labels s) <=? 1) eqn:E.
  - repeat split; assumption.
  - apply Nat.leb_gt in E. unfold lockStep. simpl.
    rewrite length_map, !length_removelast. repeat split; try lia.
    apply Forall_forall. intros r Hr. apply in_map_iff in Hr.
    destruct Hr as (row & <- & Hrow). apply In_removelast in Hrow.
    rewrite Forall_forall in Hsq. rewrite length_removelast, (Hsq _ Hrow).
    reflexivity.
Qed.

Lemma grown_self_loop (M : list (list R)) (n : nat) :
  length M = n ->
  rowAt (grown M n) n = repeat lit0 n ++ [lit1] /\
  at_ (rowAt (grown M n) n) n = lit1.
Proof.
  intro Hlen. unfold rowAt, grown.
  assert (E : nth n (map (fun row => row ++ [lit0]) M ++ [repeat lit0 n ++ [lit1]]) []
              = repeat lit0 n ++ [lit1]).
  { rewrite app_nth2 by (rewrite length_map; lia).
    rewrite length_map, Hlen, Nat.sub_diag. reflexivity. }
  rewrite E. split; [reflexivity|].
  unfold at_. rewrite app_nth2 by (rewrite repeat_length; lia).
  rewrite repeat_length, Nat.sub_diag. reflexivity.
Qed.

End ShapeFacts.

(** C8.  On a page whose labels, initial vector and matrix are in lock-step
    ([n] labels, [n] initial entries, [n] rows of [n] entries, [n >= 1]):
    [addState] succeeds and leaves them in lock-step at size [n + 1], every
    old row extended by a [0], a new last row that is zero except for a [1] on
    the diagonal, and a [0] appended to the initial vector; [removeState]
    leaves them in lock-step, at size [n - 1] (last label, last row, last
    column and last initial entry dropped) when [n >= 2], and changes nothing
    at all when [n = 1]. *)
Theorem add_remove_keep_lockStep :
  forall (R : Type) (N : JsNumber R) (s : state R),
    lockStep s ->
    let n := length (labels s) in
    (exists s',
        addState s = Some s' /\ lockStep s' /\
        labels s' = labels s ++ [stateName (n + 1)] /\
        P s' = map (fun row => row ++ [lit0]) (P s) ++ [repeat lit0 n ++ [lit1]] /\
        p0 s' = p0 s ++ [lit0] /\
        length (labels s') = n + 1 /\
        at_ (rowAt (P s') n) n = lit1) /\
    lockStep (removeState s) /\
    (n = 1 -> removeState s = s) /\
    (2 <= n ->
     labels (removeState s) = removelast (labels s) /\
     P (removeState s) = map (@removelast R) (removelast (P s)) /\
     p0 (removeState s) = removelast (p0 s) /\
     length (labels (removeState s)) = n - 1).
Proof.
  intros R N s Hwf n. pose proof Hwf as (Hn & Hp0 & Hrows & Hsq).
  split; [|split; [|split]].
  - eexists. split; [apply addState_grows; exact Hrows|].
    split; [apply grown_lockStep; exact Hwf|].
    simpl. repeat split.
    + rewrite length_app. reflexivity.
    + apply grown_self_loop. exact Hrows.
  - apply removeState_lockStep. exact Hwf.
  - intro H1. unfold removeState. fold n. rewrite H1. reflexivity.
  - intro H2. unfold removeState. fold n.
    destruct (n <=? 1) eqn:E; [apply Nat.leb_le in E; lia|].
    simpl. repeat split. apply length_removelast.
Qed.

(** The weather page is in lock-step; adding a state to it gives three labels
    and removing one gives a single label. *)
Lemma add_remove_keep_lockStep_witness :
  lockStep FloatPresets.weatherPage /\
  (exists s', addState FloatPresets.weatherPage = Some s' /\
              labels s' = ["Sunny"; "Rainy"; "State 3"]%string /\
              P s' = [[0.8; 0.2; 0]; [0.4; 0.6; 0]; [0; 0; 1]]%float /\
              p0 s' = [1; 0; 0]%float) /\
  labels (removeState FloatPresets.weatherPage) = ["Sunny"]%string.
Proof.
  assert (Hwf : lockStep FloatPresets.weatherPage).
  { unfold lockStep. simpl. repeat split; try lia. repeat constructor. }
  split; [exact Hwf|].
  destruct (add_remove_keep_lockStep float _ FloatPresets.weatherPage Hwf)
    as ((s' & Hadd & _ & Hl & HP & Hp0 & _) & _ & _ & Hrem).
  split.
  - exists s'. split; [exact Hadd|]. rewrite Hl, HP, Hp0. repeat split.
  - destruct (Hrem (le_n 2)) as (Hl' & _). rewrite Hl'. reflexivity.
Defined.

(** ** Adding a state keeps a valid matrix valid *)

Section GrowthFacts.

Context {R : Type} `{JsNumber R}.

Variable tol : R.

(** What the argument needs of the numbers: appending a [0] to a row does not
    change the outcome of its sum test, and the new row passes both tests. *)
Hypothesis sum_test_add_zero :
  forall s, lt tol (abs (sub (add s lit0) lit1)) = lt tol (abs (sub s lit1)).
Hypothesis zero_passes : lt lit0 (neg lit1e_12) = false.
Hypothesis one_passes : lt lit1 (neg lit1e_12) = false.
Hypothesis zero_add_zero : add lit0 lit0 = lit0.
Hypothesis zero_add_one : add lit0 lit1 = lit1.
Hypothesis unit_sum_passes : lt tol (abs (sub lit1 lit1)) = false.

Lemma rowSum_snoc (row : list R) (x : R) :
  rowSum (row ++ [x]) = add (rowSum row) x.
Proof. unfold rowSum. rewrite fold_left_app. reflexivity. Qed.

Lemma negative_snoc_zero (row : list R) :
  existsb (fun x => lt x (neg lit1e_12)) (row ++ [lit0]) =
  existsb (fun x => lt x (neg lit1e_12)) row.
Proof.
  rewrite existsb_app. simpl. rewrite zero_passes, !orb_false_r. reflexivity.
Qed.

Lemma basis_row_passes (n : nat) :
  existsb (fun x => lt x (neg lit1e_12)) (repeat lit0 n ++ [lit1]) = false /\
  rowSum (repeat lit0 n ++ [lit1]) = lit1.
Proof.
  split.
  - rewrite existsb_app. simpl. rewrite one_passes, orb_false_r.
    induction n as [|n IH]; simpl; [reflexivity|].
    rewrite zero_passes. exact IH.
  - rewrite rowSum_snoc, (rowSum_zeros n zero_add_zero). exact zero_add_one.
Qed.

Lemma grown_stochastic (M : list (list R)) (n : nat) :
  isRowStochastic M tol = true -> isRowStochastic (grown M n) tol = true.
Proof.
  unfold grown. induction M as [|row M IH].
  - intros _. cbn [map app isRowStochastic].
    destruct (basis_row_passes n) as [-> ->].
    rewrite unit_sum_passes. reflexivity.
  - cbn [map app isRowStochastic].
    rewrite negative_snoc_zero, rowSum_snoc, sum_test_add_zero.
    destruct (existsb (fun x => lt x (neg lit1e_12)) row); [discriminate|].
    destruct (lt tol (abs (sub (rowSum row) lit1))); [discriminate|].
    exact IH.
Qed.

End GrowthFacts.

(** Adding [+0] in binary64 gives the number back, except that [-0] becomes
    [+0]. *)
Lemma binary64_add_zero (x : float) : (x + 0 = x)%float \/ x = (-0)%float.
Proof.
  destruct (Prim2SF x) as [s| s| |s m e] eqn:E.
  - destruct s.
    + right. apply Prim2SF_inj. rewrite E. reflexivity.
    + left. apply Prim2SF_inj. rewrite FloatAxioms.add_spec, E. reflexivity.
  - left. apply Prim2SF_inj. rewrite FloatAxioms.add_spec, E. reflexivity.
  - left. apply Prim2SF_inj. rewrite FloatAxioms.add_spec, E. reflexivity.
  - left. apply Prim2SF_inj. rewrite FloatAxioms.add_spec, E. reflexivity.
Qed.

Lemma binary64_grown_stochastic (M : list (list float)) (n : nat) :
  isRowStochastic M lit1e_9 = true -> isRowStochastic (grown M n) lit1e_9 = true.
Proof.
  apply grown_stochastic; try (vm_compute; reflexivity).
  intro s. destruct (binary64_add_zero s) as [E | ->].
  - change (add s lit0) with (s + 0)%float. rewrite E. reflexivity.
  - vm_compute. reflexivity.
Qed.

Lemma exact_grown_stochastic (M : list (list Qc)) (n : nat) :
  isRowStochastic M lit1e_9 = true -> isRowStochastic (grown M n) lit1e_9 = true.
Proof.
  apply grown_stochastic; try (vm_compute; reflexivity).
  intro s. change (add s lit0) with (s + 0)%Qc.
  replace (s + 0)%Qc with s by ring. reflexivity.
Qed.

(** C10.  If the matrix passes [isRowStochastic] (default tolerance), so does
    the matrix [addState] produces from it: every row extended by a [0] and a
    new last row that is zero except for its final [1].  This holds in exact
    arithmetic and in binary64, for a matrix of any shape; on a page whose
    matrix has as many rows as there are labels, [addState] succeeds and that
    matrix is the one it stores. *)
Theorem addState_keeps_validity :
  (forall (M : list (list Qc)) (n : nat),
      isRowStochastic M lit1e_9 = true ->
      isRowStochastic (grown M n) lit1e_9 = true) /\
  (forall (M : list (list float)) (n : nat),
      isRowStochastic M lit1e_9 = true ->
      isRowStochastic (grown M n) lit1e_9 = true) /\
  (forall s : state Qc,
      length (P s) = length (labels s) ->
      isRowStochastic (P s) lit1e_9 = true ->
      exists s', addState s = Some s' /\
                 P s' = grown (P s) (length (P s)) /\
                 isRowStochastic (P s') lit1e_9 = true) /\
  (forall s : state float,
      length (P s) = length (labels s) ->
      isRowStochastic (P s) lit1e_9 = true ->
      exists s', addState s = Some s' /\
                 P s' = grown (P s) (length (P s)) /\
                 isRowStochastic (P s') lit1e_9 = true).
Proof.
  split; [|split; [|split]].
  - exact exact_grown_stochastic.
  - exact binary64_grown_stochastic.
  - intros s Hrows Hok. eexists. split; [apply addState_grows; exact Hrows|].
    simpl. rewrite Hrows. split; [reflexivity|].
    apply exact_grown_stochastic. exact Hok.
  - intros s Hrows Hok. eexists. split; [apply addState_grows; exact Hrows|].
    simpl. rewrite Hrows. split; [reflexivity|].
    apply binary64_grown_stochastic. exact Hok.
Qed.

(** The weather page is valid, and so is its matrix after [addState]. *)
Lemma addState_keeps_validity_witness :
  isRowStochastic (P FloatPresets.weatherPage) lit1e_9 = true /\
  exists s', addState FloatPresets.weatherPage = Some s' /\
             isRowStochastic (P s') lit1e_9 = true.
Proof.
  assert (Hok : isRowStochastic (P FloatPresets.weatherPage) lit1e_9 = true)
    by (vm_compute; reflexivity).
  split; [exact Hok|].
  destruct (proj2 (proj2 (proj2 addState_keeps_validity))
              FloatPresets.weatherPage eq_refl Hok) as (s' & Hadd & _ & Hvalid).
  exists s'. split; assumption.
Defined.

(** ** Cancelling the run loop *)

Section RunLoopFacts.

Context {R : Type} `{JsNumber R}.

Lemma withRunning_same (s : state R) : withRunning (running s) s = s.
Proof. destruct s; reflexivity. Qed.

Lemma pause_stops (w : world R) : stopped (pause w).
Proof.
  unfold pause, stopped. simpl.
  destruct (timer (page w)) eqn:E; simpl; [split; reflexivity|].
  split; [reflexivity | exact E].
Qed.

Lemma tick_not_running (m : R) (d : dom R) (w : world R) :
  running (page w) = false -> tick m d w = w.
Proof. intro Hoff. unfold tick. rewrite Hoff. reflexivity. Qed.

Lemma pause_stopped_page (w : world R) : stopped w -> page (pause w) = page w.
Proof.
  intros [Hoff Hnone]. unfold pause. simpl. rewrite Hnone. simpl.
  rewrite <- Hoff. apply withRunning_same.
Qed.

Lemma quiet_keeps_page (w : world R) (e : event R) :
  stopped w -> quiet e -> page (handle w e) = page w.
Proof.
  intros Hs Hq. pose proof Hs as [Hoff Hnone].
  destruct e as [d | d | | | id d]; try contradiction; simpl.
  - apply pause_stopped_page. exact Hs.
  - rewrite Hoff. reflexivity.
  - destruct (find (fun e => Pos.eqb (fst e) id) (armed w)) as [e|].
    + rewrite tick_not_running by exact Hoff. reflexivity.
    + reflexivity.
Qed.

Lemma quiet_trace_keeps_page (es : list (event R)) :
  forall w, stopped w -> Forall quiet es -> page (handleAll w es) = page w.
Proof.
  unfold handleAll.
  induction es as [|e es IH]; intros w Hs Hq; [reflexivity|].
  inversion Hq as [|e' es' He Hes]; subst. simpl.
  pose proof (quiet_keeps_page w e Hs He) as Hpage.
  rewrite IH; [exact Hpage | | exact Hes].
  unfold stopped. rewrite Hpage. exact Hs.
Qed.

Lemma stepOnce_keeps_control (d : dom R) (s : state R) :
  running (stepOnce d s) = running s /\ timer (stepOnce d s) = timer s.
Proof.
  unfold stepOnce.
  destruct (isRowStochastic (P (syncFromInputs d s)) lit1e_9); split; reflexivity.
Qed.

Lemma clearTimeout_single (id : positive) (m : R) : clearTimeout id [(id, m)] = [].
Proof. unfold clearTimeout. simpl. rewrite Pos.eqb_refl. reflexivity. Qed.

Lemma pause_disarms (w : world R) : tracked w -> armed (pause w) = [].
Proof.
  intros [Hnil | (id & m & Harmed & Htimer)]; unfold pause; simpl.
  - destruct (timer (page w)); simpl; rewrite Hnil; reflexivity.
  - rewrite Htimer. simpl. rewrite Harmed. apply clearTimeout_single.
Qed.

Lemma pause_tidy (w : world R) : tracked w -> tidy (pause w).
Proof.
  intro Ht. pose proof (pause_disarms w Ht) as Hnil.
  split; [left; exact Hnil | intros _; exact Hnil].
Qed.

Lemma tick_tidy (m : R) (d : dom R) (w : world R) :
  armed w = [] -> tidy (tick m d w).
Proof.
  intro Hnil. unfold tick.
  destruct (running (page w)) eqn:Hrun; simpl.
  - destruct (le m (ofNat (stepIdx (stepOnce d (page w))))).
    + apply pause_tidy. left. exact Hnil.
    + split.
      * right. unfold setTimeout. simpl. rewrite Hnil. simpl.
        eexists _, _. split; reflexivity.
      * unfold setTimeout. simpl.
        rewrite (proj1 (stepOnce_keeps_control d (page w))), Hrun. discriminate.
  - split; [left; exact Hnil | intros _; exact Hnil].
Qed.

Lemma handle_tidy (w : world R) (e : event R) : tidy w -> tidy (handle w e).
Proof.
  intros Hw. pose proof Hw as [Ht Hoff].
  destruct e as [d | d | | | id d]; cbn [handle].
  - pose proof (stepOnce_keeps_control d (page w)) as [Hr Hti].
    split; cbn [page armed].
    + destruct Ht as [Hnil | (id & m & Harmed & Htimer)]; [left; exact Hnil|].
      right. exists id, m. split; [exact Harmed | cbn [page]; rewrite Hti; exact Htimer].
    + cbn [page]. rewrite Hr. exact Hoff.
  - unfold run. destruct (running (page w)) eqn:Hrun; [exact Hw|].
    apply tick_tidy. simpl. apply Hoff. reflexivity.
  - apply pause_tidy. exact Ht.
  - destruct (running (page w)); [apply pause_tidy; exact Ht | exact Hw].
  - destruct (find (fun e => Pos.eqb (fst e) id) (armed w)) as [e|] eqn:Ef;
      [|exact Hw].
    apply tick_tidy. simpl.
    destruct Ht as [Hnil | (id' & m & Harmed & _)].
    + rewrite Hnil. reflexivity.
    + rewrite Harmed in Ef |- *. simpl in Ef. unfold clearTimeout. simpl.
      destruct (Pos.eqb id' id); [reflexivity | discriminate].
Qed.

Lemma handleAll_tidy (es : list (event R)) :
  forall w, tidy w -> tidy (handleAll w es).
Proof.
  unfold handleAll.
  induction es as [|e es IH]; intros w Hw; [exact Hw|].
  simpl. apply IH. apply handle_tidy. exact Hw.
Qed.

End RunLoopFacts.

(** C9.  Once [pause] has cleared the running flag, nothing short of a new
    click on Step or Run changes the page: whatever timeouts fire (armed or
    not), however often Pause is clicked or the tab is hidden, the
    distribution, the step counter and the analysis box stay as [pause] left
    them, because [tick] returns at once when the flag is cleared; and on any
    page history that started with no timeout armed, [pause] leaves no timeout
    armed at all.  On the weather preset a run with [maxSteps = 2000] ticks
    once when Run is clicked and once per timeout; paused after the third
    tick it has recorded exactly three steps, and that count stays. *)
Theorem pause_cancels_run :
  (forall (R : Type) (N : JsNumber R) (w : world R) (es : list (event R)),
      Forall quiet es ->
      running (page (pause w)) = false /\
      page (handleAll (pause w) es) = page (pause w)) /\
  (forall (R : Type) (N : JsNumber R) (m : R) (d : dom R) (w : world R),
      running (page w) = false -> tick m d w = w) /\
  (forall (R : Type) (N : JsNumber R) (s : state R) (h : positive)
          (es : list (event R)),
      running s = false ->
      armed (pause (handleAll (mkWorld s [] h) es)) = []) /\
  (let d := ExactPresets.weatherInputs in
   let w0 := mkWorld ExactPresets.weatherPage [] 1%positive in
   let w1 := handle w0 (ClickRun d) in
   let w2 := handle w1 (Timeout 1%positive d) in
   let w3 := handle w2 (Timeout 2%positive d) in
   let w4 := handle w3 ClickPause in
   stepIdx (page w1) = 1 /\ stepIdx (page w2) = 2 /\ stepIdx (page w3) = 3 /\
   running (page w3) = true /\ map fst (armed w3) = [3%positive] /\
   stepIdx (page w4) = 3 /\ running (page w4) = false /\ armed w4 = [] /\
   forall es, Forall quiet es ->
     stepIdx (page (handleAll w4 es)) = 3 /\
     p (page (handleAll w4 es)) = p (page w3)) /\
  (let d := FloatPresets.weatherInputs in
   let w0 := mkWorld FloatPresets.weatherPage [] 1%positive in
   let w1 := handle w0 (ClickRun d) in
   let w2 := handle w1 (Timeout 1%positive d) in
   let w3 := handle w2 (Timeout 2%positive d) in
   let w4 := handle w3 ClickPause in
   stepIdx (page w1) = 1 /\ stepIdx (page w2) = 2 /\ stepIdx (page w3) = 3 /\
   running (page w3) = true /\ armed w3 = [(3%positive, 2000%float)] /\
   stepIdx (page w4) = 3 /\ running (page w4) = false /\ armed w4 = [] /\
   forall es, Forall quiet es ->
     stepIdx (page (handleAll w4 es)) = 3 /\
     p (page (handleAll w4 es)) = p (page w3)).
Proof.
  split; [|split; [|split; [|split]]].
  - intros R N w es Hq. split; [apply pause_stops|].
    apply quiet_trace_keeps_page; [apply pause_stops | exact Hq].
  - intros R N m d w. apply tick_not_running.
  - intros R N s h es Hoff. apply pause_disarms.
    apply (handleAll_tidy es). split; [left; reflexivity | intros _; reflexivity].
  - cbv zeta. repeat match goal with |- _ /\ _ => split end;
      try (vm_compute; reflexivity).
    intros es Hq.
    change (handle ?w ClickPause) with (pause w).
    rewrite (quiet_trace_keeps_page es _ (pause_stops _) Hq).
    split; vm_compute; reflexivity.
  - cbv zeta. repeat match goal with |- _ /\ _ => split end;
      try (vm_compute; reflexivity).
    intros es Hq.
    change (handle ?w ClickPause) with (pause w).
    rewrite (quiet_trace_keeps_page es _ (pause_stops _) Hq).
    split; vm_compute; reflexivity.
Qed.

(** After a pause on the running weather page, a stale timeout, a hidden tab
    and another timeout leave the page as it was. *)
Lemma pause_cancels_run_witness :
  Forall quiet [Timeout 1%positive FloatPresets.weatherInputs; TabHidden;
                Timeout 2%positive FloatPresets.weatherInputs] /\
  running (page FloatPresets.runningWorld) = true /\
  stepIdx (page (handleAll (pause FloatPresets.runningWorld)
                   [Timeout 1%positive FloatPresets.weatherInputs; TabHidden;
                    Timeout 2%positive FloatPresets.weatherInputs])) = 1.
Proof.
  assert (Hq : Forall quiet
                 [Timeout 1%positive FloatPresets.weatherInputs; TabHidden;
                  Timeout 2%positive FloatPresets.weatherInputs])
    by (repeat constructor).
  split; [exact Hq|]. split; [vm_compute; reflexivity|].
  rewrite (proj2 (proj1 pause_cancels_run float _ _ _ Hq)).
  vm_compute. reflexivity.
Defined.

(** ** Adding a state and removing it again *)

Section RoundTripFacts.

Context {R : Type} `{JsNumber R}.

Lemma removelast_snoc_rows (M : list (list R)) (x : R) :
  map (@removelast R) (map (fun row => row ++ [x]) M) = M.
Proof.
  induction M as [|row M IH]; simpl; [reflexivity|].
  rewrite removelast_last, IH. reflexivity.
Qed.

End RoundTripFacts.

(** X1.  On a page with at least one label and as many matrix rows as labels,
    [removeState] undoes [addState]: the labels, the matrix, the initial
    vector and everything else are again what they were.  With no label at
    all the added state stays, because [removeState] refuses to go below
    one. *)
Theorem removeState_undoes_addState :
  forall (R : Type) (N : JsNumber R) (s : state R),
    length (P s) = length (labels s) ->
    (1 <= length (labels s) ->
     exists s', addState s = Some s' /\ removeState s' = s) /\
    (length (labels s) = 0 ->
     exists s', addState s = Some s' /\ removeState s' = s' /\
                length (labels s') = 1).
Proof.
  intros R N s Hrows. split.
  - intro Hn. eexists. split; [apply addState_grows; exact Hrows|].
    unfold removeState. cbn [labels P p0 withConfig].
    rewrite length_app. cbn [length].
    destruct (length (labels s) + 1 <=? 1) eqn:E; [apply Nat.leb_le in E; lia|].
    unfold grown. rewrite !removelast_last, removelast_snoc_rows.
    destruct s; reflexivity.
  - intro H0. eexists. split; [apply addState_grows; exact Hrows|].
    unfold removeState. cbn [labels P p0 withConfig].
    rewrite length_app, H0. cbn. split; reflexivity.
Qed.

(** The weather page: a third state is added and removed again. *)
Lemma removeState_undoes_addState_witness :
  exists s', addState FloatPresets.weatherPage = Some s' /\
             length (labels s') = 3 /\
             removeState s' = FloatPresets.weatherPage.
Proof.
  destruct (proj1 (removeState_undoes_addState float _ FloatPresets.weatherPage eq_refl)
              (le_S _ _ (le_n 1))) as (s' & Hadd & Hrem).
  exists s'. split; [exact Hadd|]. split; [|exact Hrem].
  vm_compute in Hadd. injection Hadd as <-. reflexivity.
Defined.

(** ** Normalising twice, and what normalising the rows achieves *)

Section ExactOrder.

Local Open Scope Qc_scope.

Lemma exact_inv_pos (s : Qc) : 0 < s -> 0 < / s.
Proof.
  intro Hs. unfold Qclt in *.
  change (this (/ s)) with (Qred (/ this s)).
  rewrite Qred_correct. apply Qinv_lt_0_compat. exact Hs.
Qed.

Lemma exact_div_nonneg (x s : Qc) : 0 <= x -> 0 < s -> 0 <= x / s.
Proof.
  intros Hx Hs. unfold Qcdiv.
  replace 0 with (0 * / s) by ring.
  apply Qcmult_le_compat_r; [exact Hx|].
  apply Qclt_le_weak, exact_inv_pos, Hs.
Qed.

Lemma exact_le_false (a b : Qc) : Exact.leb a b = false <-> b < a.
Proof.
  split; intro K.
  - apply Qcnot_le_lt. intro L. apply exact_le_iff in L. congruence.
  - destruct (Exact.leb a b) eqn:E; [|reflexivity].
    apply exact_le_iff in E. exfalso. exact (Qcle_not_lt _ _ E K).
Qed.

Lemma exact_rowSum_positive (row : list Qc) :
  le (rowSum row) lit0 = false <-> 0 < rowSum row.
Proof. apply exact_le_false. Qed.

Lemma exact_normalizeRow_positive (row : list Qc) :
  0 < rowSum row ->
  normalizeRow row = map (fun x => x / rowSum row) row /\
  rowSum (normalizeRow row) = 1.
Proof.
  intro Hpos.
  destruct (normalizeRow_cases row) as [Hdiv _].
  specialize (Hdiv (proj2 (exact_rowSum_positive row) Hpos)).
  change (normalizeRow row = map (fun x => x / rowSum row) row) in Hdiv.
  split; [exact Hdiv|]. rewrite Hdiv, exact_rowSum_scaled.
  field. intro E. rewrite E in Hpos. exact (Qclt_not_eq _ _ Hpos eq_refl).
Qed.

Lemma exact_normalizeRow_nonpositive (row : list Qc) :
  rowSum row <= 0 ->
  normalizeRow row = repeat 0 (length row) /\ rowSum (normalizeRow row) = 0.
Proof.
  intro Hle. destruct (normalizeRow_cases row) as [_ Hzero].
  specialize (Hzero (proj2 (exact_le_iff _ _) Hle)).
  split; [exact Hzero|]. rewrite Hzero.
  refine (@rowSum_zeros Qc _ (length row) _). vm_compute. reflexivity.
Qed.

Lemma exact_div_one (row : list Qc) : map (fun x => x / 1) row = row.
Proof.
  rewrite <- (map_id row) at 2. apply map_ext. intro x. field.
  exact Q_apart_0_1.
Qed.

Lemma exact_normalizeRow_twice (row : list Qc) :
  normalizeRow (normalizeRow row) = normalizeRow row.
Proof.
  destruct (Qclt_le_dec 0 (rowSum row)) as [Hpos | Hle].
  - destruct (exact_normalizeRow_positive row Hpos) as [_ Hone].
    assert (Hpos' : 0 < rowSum (normalizeRow row))
      by (rewrite Hone; apply exact_lt_iff; vm_compute; reflexivity).
    destruct (exact_normalizeRow_positive _ Hpos') as [E _].
    rewrite E, Hone. apply exact_div_one.
  - destruct (exact_normalizeRow_nonpositive row Hle) as [Hz Hsum].
    assert (Hle' : rowSum (normalizeRow row) <= 0)
      by (rewrite Hsum; apply Qcle_refl).
    destruct (exact_normalizeRow_nonpositive _ Hle') as [E _].
    rewrite E, Hz, repeat_length. reflexivity.
Qed.

End ExactOrder.

(** X2.  In exact arithmetic [normalizeRow] (and [normalizeVector], the same
    function) is idempotent: normalising a row that has been normalised
    changes nothing, whether the row had a positive sum or was replaced by
    zeros.  In binary64 this holds only up to rounding: a second
    normalisation of [0.1, 0.2, 0.3] moves the last digits. *)
Theorem normalizeRow_idempotent :
  (forall row : list Qc,
      normalizeRow (normalizeRow row) = normalizeRow row /\
      normalizeVector (normalizeVector row) = normalizeVector row) /\
  normalizeRow (normalizeRow [0.1; 0.2; 0.3]%float)
  <> normalizeRow [0.1; 0.2; 0.3]%float.
Proof.
  split.
  - intro row. split; apply exact_normalizeRow_twice.
  - intro E.
    apply (f_equal (fun l : list float =>
                      PrimFloat.eqb (nth 0 l 0%float)
                        (nth 0 (normalizeRow [0.1; 0.2; 0.3]%float) 0%float))) in E.
    vm_compute in E. discriminate.
Qed.

Section NormalizeRowsFacts.

Local Open Scope Qc_scope.

Lemma isRowStochastic_true (M : list (list Qc)) (tol : Qc) :
  isRowStochastic M tol = true <-> forall row, In row M -> ~ rowRejected tol row.
Proof.
  destruct (isRowStochastic M tol) eqn:E.
  - split; [|reflexivity]. intros _ row Hin Hrej.
    assert (K : isRowStochastic M tol = false)
      by (apply isRowStochastic_false; exists row; split; assumption).
    congruence.
  - split; [discriminate|]. intro K.
    apply isRowStochastic_false in E. destruct E as (row & Hin & Hrej).
    exfalso. exact (K row Hin Hrej).
Qed.

Lemma exact_normalized_row_accepted (row : list Qc) :
  (forall x, In x row -> 0 <= x) ->
  0 < rowSum row ->
  ~ rowRejected lit1e_9 (normalizeRow row).
Proof.
  intros Hnn Hpos [(y & Hy & Hneg) | Hsum].
  - destruct (exact_normalizeRow_positive row Hpos) as [E _].
    rewrite E in Hy. apply in_map_iff in Hy. destruct Hy as (x & <- & Hx).
    apply exact_lt_iff in Hneg.
    apply (Qcle_not_lt _ _ (exact_div_nonneg x (rowSum row) (Hnn x Hx) Hpos)).
    apply (Qclt_trans _ _ _ Hneg). apply exact_lt_iff. vm_compute. reflexivity.
  - destruct (exact_normalizeRow_positive row Hpos) as [_ Hone].
    rewrite Hone in Hsum. vm_compute in Hsum. discriminate.
Qed.

Lemma exact_zeroed_row_rejected (row : list Qc) :
  rowSum row <= 0 -> rowRejected lit1e_9 (normalizeRow row).
Proof.
  intro Hle. right.
  destruct (exact_normalizeRow_nonpositive row Hle) as [_ Hzero].
  rewrite Hzero. vm_compute. reflexivity.
Qed.

Lemma exact_normalized_matrix_valid (M : list (list Qc)) :
  (forall row x, In row M -> In x row -> 0 <= x) ->
  (isRowStochastic (map normalizeRow M) lit1e_9 = true <->
   forall row, In row M -> 0 < rowSum row).
Proof.
  intro Hnn. rewrite isRowStochastic_true. split.
  - intros K row Hin. destruct (Qclt_le_dec 0 (rowSum row)) as [Hpos | Hle];
      [exact Hpos|].
    exfalso. apply (K (normalizeRow row)); [apply in_map; exact Hin|].
    apply exact_zeroed_row_rejected. exact Hle.
  - intros K row' Hin'. apply in_map_iff in Hin'.
    destruct Hin' as (row & <- & Hin).
    apply exact_normalized_row_accepted; [intros x Hx; exact (Hnn row x Hin Hx)|].
    apply K. exact Hin.
Qed.

End NormalizeRowsFacts.

(** X3.  In exact arithmetic, on a matrix without negative entries, the
    Normalize Rows button yields a matrix that passes [isRowStochastic]
    exactly when every row has a positive sum: a row that sums to zero is
    replaced by zeros and keeps the matrix invalid.  The Randomize button
    likewise yields a valid matrix with [n] rows of [n] entries whenever the
    numbers drawn are non-negative and every row draws a positive total. *)
Theorem normalizeRows_validity :
  (forall s : state Qc,
      (forall row x, In row (P s) -> In x row -> (0 <= x)%Qc) ->
      (isRowStochastic (P (normalizeRows s)) lit1e_9 = true <->
       forall row, In row (P s) -> (0 < rowSum row)%Qc)) /\
  (forall (rnd : nat -> nat -> Qc) (s : state Qc),
      let n := length (P s) in
      (forall i j, i < n -> j < n -> (0 <= rnd i j)%Qc) ->
      (forall i, i < n -> (0 < rowSum (map (rnd i) (seq 0 n)))%Qc) ->
      isRowStochastic (P (randomizeMatrix rnd s)) lit1e_9 = true /\
      length (P (randomizeMatrix rnd s)) = n /\
      Forall (fun row => length row = n) (P (randomizeMatrix rnd s))).
Proof.
  split.
  - intros s Hnn. apply exact_normalized_matrix_valid. exact Hnn.
  - intros rnd s n Hnn Hpos.
    change (P (randomizeMatrix rnd s))
      with (map (fun i => normalizeRow (map (rnd i) (seq 0 n))) (seq 0 n)).
    rewrite <- (map_map (fun i => map (rnd i) (seq 0 n)) normalizeRow).
    split; [|split].
    + apply exact_normalized_matrix_valid.
      * intros row x Hrow Hx. apply in_map_iff in Hrow.
        destruct Hrow as (i & <- & Hi). apply in_map_iff in Hx.
        destruct Hx as (j & <- & Hj). apply in_seq in Hi, Hj.
        apply Hnn; lia.
      * intros row Hrow. apply in_map_iff in Hrow.
        destruct Hrow as (i & <- & Hi). apply in_seq in Hi. apply Hpos. lia.
    + rewrite !length_map, length_seq. reflexivity.
    + apply Forall_forall. intros row Hrow. apply in_map_iff in Hrow.
      destruct Hrow as (r & <- & Hr). apply in_map_iff in Hr.
      destruct Hr as (i & <- & Hi).
      unfold normalizeRow.
      destruct (le (rowSum (map (rnd i) (seq 0 n))) lit0);
        rewrite !length_map, length_seq; reflexivity.
Qed.

(** The matrix [[2, 6], [0, 5]] has no negative entry and positive row sums,
    and Normalize Rows makes it valid. *)
Lemma normalizeRows_validity_witness :
  isRowStochastic
    (P (normalizeRows
          (mkState ["A"; "B"]%string
             [[Exact.dec 2 1; Exact.dec 6 1]; [Exact.dec 0 1; Exact.dec 5 1]]
             [Exact.dec 1 1; Exact.dec 0 1] false None 0 [] [])))
    lit1e_9 = true.
Proof.
  apply (proj1 normalizeRows_validity).
  - intros row x Hrow Hx. apply exact_le_iff.
    cbn [P] in Hrow.
    repeat (destruct Hrow as [<- | Hrow];
            [repeat (destruct Hx as [<- | Hx]; [vm_compute; reflexivity|]);
             destruct Hx|]).
    destruct Hrow.
  - intros row Hrow. apply exact_lt_iff. cbn [P] in Hrow.
    repeat (destruct Hrow as [<- | Hrow]; [vm_compute; reflexivity|]).
    destruct Hrow.
Defined.

(** ** A session vector that does not match the matrix *)

Section MismatchFacts.

Context {R : Type} `{JsNumber R}.

Lemma multRowVecMat_length (v : list R) (M : list (list R)) :
  length (multRowVecMat v M) = length M.
Proof. unfold multRowVecMat. rewrite length_map, length_seq. reflexivity. Qed.

Lemma fold_left_ext_in (A : Type) (f g : R -> A -> R) (l : list A) (a : R) :
  (forall s k, In k l -> f s k = g s k) -> fold_left f l a = fold_left g l a.
Proof.
  revert a. induction l as [|k l IH]; intros a K; [reflexivity|].
  simpl. rewrite (K a k (or_introl eq_refl)). apply IH.
  intros s k' Hk'. apply K. now right.
Qed.

Lemma multRowVecMat_ignores_tail (v extra : list R) (M : list (list R)) :
  length v = length M ->
  multRowVecMat (v ++ extra) M = multRowVecMat v M.
Proof.
  intro Hlen. unfold multRowVecMat. apply map_ext. intro j.
  unfold dotColumn. apply fold_left_ext_in. intros s k Hk.
  apply in_seq in Hk. unfold at_ at 1 3.
  rewrite app_nth1 by lia. reflexivity.
Qed.

End MismatchFacts.

Lemma binary64_nan_mul (x : float) : (nan * x = nan)%float.
Proof.
  apply Prim2SF_inj. rewrite FloatAxioms.mul_spec.
  change (Prim2SF nan) with S754_nan. reflexivity.
Qed.

Lemma binary64_add_nan (s : float) : (s + nan = nan)%float.
Proof.
  apply Prim2SF_inj. rewrite FloatAxioms.add_spec.
  change (Prim2SF nan) with S754_nan.
  destruct (Prim2SF s) as [?|?| |? ? ?]; reflexivity.
Qed.

Lemma binary64_nan_add (x : float) : (nan + x = nan)%float.
Proof.
  apply Prim2SF_inj. rewrite FloatAxioms.add_spec.
  change (Prim2SF nan) with S754_nan. reflexivity.
Qed.

Lemma binary64_sum_stays_nan (A : Type) (f : A -> float) (l : list A) :
  fold_left (fun sum k => add sum (f k)) l nan = nan.
Proof.
  induction l as [|k l IH]; [reflexivity|].
  simpl. change (add nan (f k)) with (nan + f k)%float.
  rewrite binary64_nan_add. exact IH.
Qed.

Lemma binary64_sum_hits_nan (A : Type) (f : A -> float) (l : list A) (a : float) :
  (exists k, In k l /\ f k = nan) ->
  fold_left (fun sum k => add sum (f k)) l a = nan.
Proof.
  revert a. induction l as [|k l IH]; intros a (k0 & Hin & Hk0); [destruct Hin|].
  simpl. destruct Hin as [<- | Hin].
  - rewrite Hk0. change (add a nan) with (a + nan)%float.
    rewrite binary64_add_nan. apply binary64_sum_stays_nan.
  - apply IH. exists k0. split; assumption.
Qed.

Lemma map_all_equal (A B : Type) (f : A -> B) (b : B) (l : list A) :
  (forall a, f a = b) -> map f l = repeat b (length l).
Proof.
  intro K. induction l as [|a l IH]; simpl; [reflexivity|].
  rewrite K, IH. reflexivity.
Qed.

Lemma binary64_short_vector (v : list float) (M : list (list float)) :
  length v < length M ->
  multRowVecMat v M = repeat nan (length M).
Proof.
  intro Hshort. unfold multRowVecMat.
  transitivity (repeat nan (length (seq 0 (length M))));
    [|rewrite length_seq; reflexivity].
  apply map_all_equal. intro j. unfold dotColumn.
  apply (binary64_sum_hits_nan nat
           (fun k => mul (at_ v k) (at_ (rowAt M k) j))).
  exists (length v). split; [apply in_seq; lia|].
  unfold at_ at 1. rewrite nth_overflow by lia.
  change (mul NaN (at_ (rowAt M (length v)) j))
    with (nan * at_ (rowAt M (length v)) j)%float.
  apply binary64_nan_mul.
Qed.

(** ** Reading the inputs *)

Section SyncFacts.

Context {R : Type} `{JsNumber R}.

Lemma imap_from_fusion (A B C : Type) (f : nat -> B -> C) (g : nat -> A -> B)
      (l : list A) :
  forall k,
    map (fun ib => f (fst ib) (snd ib))
        (combine (seq k (length l))
                 (map (fun ia => g (fst ia) (snd ia)) (combine (seq k (length l)) l)))
    = map (fun ia => f (fst ia) (g (fst ia) (snd ia))) (combine (seq k (length l)) l).
Proof.
  induction l as [|a l IH]; intro k; simpl; [reflexivity|].
  f_equal. apply IH.
Qed.

Lemma imap_length (A B : Type) (f : nat -> A -> B) (l : list A) :
  length (imap f l) = length l.
Proof.
  unfold imap. rewrite length_map, length_combine, length_seq. apply Nat.min_id.
Qed.

Lemma imap_imap (A B C : Type) (f : nat -> B -> C) (g : nat -> A -> B) (l : list A) :
  imap f (imap g l) = imap (fun i a => f i (g i a)) l.
Proof.
  unfold imap at 1. rewrite imap_length. unfold imap. apply imap_from_fusion.
Qed.

Lemma imap_ext (A B : Type) (f g : nat -> A -> B) (l : list A) :
  (forall i a, f i a = g i a) -> imap f l = imap g l.
Proof. intro K. unfold imap. apply map_ext. intros [i a]. apply K. Qed.

Lemma imap_In (A B : Type) (f : nat -> A -> B) (l : list A) (b : B) :
  In b (imap f l) -> exists i a, In a l /\ b = f i a.
Proof.
  unfold imap. intro Hin. apply in_map_iff in Hin.
  destruct Hin as ([i a] & <- & Hia). apply in_combine_r in Hia.
  exists i, a. split; [exact Hia | reflexivity].
Qed.

Lemma imap_rows_length (f : nat -> nat -> R) (M : list (list R)) (n : nat) :
  Forall (fun row => length row = n) M ->
  Forall (fun row => length row = n)
         (imap (fun i row => imap (fun j (_ : R) => f i j) row) M).
Proof.
  intro Hsq. apply Forall_forall. intros r Hr. apply imap_In in Hr.
  destruct Hr as (i & row & Hrow & ->). rewrite imap_length.
  rewrite Forall_forall in Hsq. apply Hsq. exact Hrow.
Qed.

Lemma sync_twice (d : dom R) (s : state R) :
  syncFromInputs d (syncFromInputs d s) = syncFromInputs d s.
Proof.
  unfold syncFromInputs, withConfig.
  cbn [labels P p0 running timer stepIdx p analysis].
  rewrite !imap_imap. f_equal; try reflexivity.
  apply imap_ext. intros i row. rewrite imap_imap. reflexivity.
Qed.

Lemma sync_lockStep (d : dom R) (s : state R) :
  lockStep s -> lockStep (syncFromInputs d s).
Proof.
  intros (Hn & Hp0 & Hrows & Hsq). unfold lockStep, syncFromInputs.
  cbn [labels P p0 withConfig]. rewrite !imap_length.
  repeat split; try assumption.
  apply (imap_rows_length (fun i j => sanitize (cellValue d i j))). exact Hsq.
Qed.

Lemma sync_after_step (d : dom R) (s : state R) :
  P (syncFromInputs d (stepOnce d s)) = P (syncFromInputs d s).
Proof.
  transitivity (P (syncFromInputs d (syncFromInputs d s)));
    [|rewrite sync_twice; reflexivity].
  unfold stepOnce.
  destruct (isRowStochastic (P (syncFromInputs d s)) lit1e_9); reflexivity.
Qed.

Lemma sync_entries (d : dom R) (s : state R) :
  (forall row x, In row (P (syncFromInputs d s)) -> In x row ->
                 exists v, x = sanitize v) /\
  (forall x, In x (p0 (syncFromInputs d s)) -> exists v, x = sanitize v).
Proof.
  unfold syncFromInputs. cbn [P p0 withConfig]. split.
  - intros row x Hrow Hx. apply imap_In in Hrow.
    destruct Hrow as (i & r & _ & ->). apply imap_In in Hx.
    destruct Hx as (j & a & _ & ->). eexists. reflexivity.
  - intros x Hx. apply imap_In in Hx.
    destruct Hx as (j & a & _ & ->). eexists. reflexivity.
Qed.

Lemma sanitize_acceptable (v : R) :
  isFinite lit0 = true -> lt lit0 lit0 = false ->
  isFinite (sanitize v) = true /\ lt (sanitize v) lit0 = false.
Proof.
  intros Hfin Hlt. unfold sanitize.
  destruct (isFinite v) eqn:Ef; simpl; [|split; assumption].
  destruct (lt v lit0) eqn:El; split; assumption.
Qed.

End SyncFacts.

(** X4.  [syncFromInputs] keeps the shape of the configuration (a lock-step
    page stays lock-step), reading the same inputs twice is reading them once,
    and whatever the inputs hold, afterwards every entry of the matrix and of
    the initial vector is a finite number that is not below zero: text that
    does not parse, infinities and negative numbers have all become [0].
    (Both in binary64 and in exact arithmetic.) *)
Theorem syncFromInputs_sanitizes :
  (forall (R : Type) (N : JsNumber R) (d : dom R) (s : state R),
      (lockStep s -> lockStep (syncFromInputs d s)) /\
      length (P (syncFromInputs d s)) = length (P s) /\
      length (p0 (syncFromInputs d s)) = length (p0 s) /\
      syncFromInputs d (syncFromInputs d s) = syncFromInputs d s) /\
  (forall (d : dom float) (s : state float) (x : float),
      (exists row, In row (P (syncFromInputs d s)) /\ In x row) \/
      In x (p0 (syncFromInputs d s)) ->
      PrimFloat.is_nan x = false /\ PrimFloat.is_infinity x = false /\
      PrimFloat.ltb x 0%float = false) /\
  (forall (d : dom Qc) (s : state Qc) (x : Qc),
      (exists row, In row (P (syncFromInputs d s)) /\ In x row) \/
      In x (p0 (syncFromInputs d s)) ->
      (0 <= x)%Qc).
Proof.
  split; [|split].
  - intros R N d s. split; [apply sync_lockStep|].
    unfold syncFromInputs. cbn [P p0 withConfig]. rewrite !imap_length.
    split; [reflexivity|]. split; [reflexivity|]. apply sync_twice.
  - intros d s x Hx.
    assert (Hv : exists v, x = sanitize v).
    { destruct (sync_entries d s) as [HP Hp0].
      destruct Hx as [(row & Hrow & Hin) | Hin];
        [exact (HP row x Hrow Hin) | exact (Hp0 x Hin)]. }
    destruct Hv as (v & ->).
    assert (Hfin0 : isFinite (lit0 : float) = true) by (vm_compute; reflexivity).
    assert (Hlt0 : lt (lit0 : float) lit0 = false) by (vm_compute; reflexivity).
    destruct (@sanitize_acceptable float _ v Hfin0 Hlt0) as [Hfin Hlt].
    change (Binary64.finite (sanitize v) = true) in Hfin.
    unfold Binary64.finite in Hfin. apply andb_true_iff in Hfin.
    destruct Hfin as [Hnan Hinf].
    apply negb_true_iff in Hnan, Hinf. repeat split; assumption.
  - intros d s x Hx.
    assert (Hv : exists v, x = sanitize v).
    { destruct (sync_entries d s) as [HP Hp0].
      destruct Hx as [(row & Hrow & Hin) | Hin];
        [exact (HP row x Hrow Hin) | exact (Hp0 x Hin)]. }
    destruct Hv as (v & ->).
    assert (Hfin0 : isFinite (lit0 : Qc) = true) by reflexivity.
    assert (Hlt0 : lt (lit0 : Qc) lit0 = false) by (vm_compute; reflexivity).
    destruct (@sanitize_acceptable Qc _ v Hfin0 Hlt0) as [_ Hlt].
    apply exact_lt_false_iff. exact Hlt.
Qed.

(** Inputs that hold NaN, an infinity and a negative number are read as
    zeros. *)
Lemma syncFromInputs_sanitizes_witness :
  P (syncFromInputs
       (mkDom (fun i j => match i, j with
                          | 0, 0 => nan | 0, _ => infinity
                          | _, 0 => (-3)%float | _, _ => 0.5%float
                          end)
              (fun _ => neg_infinity) (fun _ => EmptyString) 0%float)
       FloatPresets.weatherPage)
  = [[0; 0]; [0; 0.5]]%float /\
  PrimFloat.is_nan 0.5%float = false.
Proof.
  split; [vm_compute; reflexivity|].
  refine (proj1 (proj1 (proj2 syncFromInputs_sanitizes)
            (mkDom (fun i j => match i, j with
                          | 0, 0 => nan | 0, _ => infinity
                          | _, 0 => (-3)%float | _, _ => 0.5%float
                          end)
              (fun _ => neg_infinity) (fun _ => EmptyString) 0%float)
            FloatPresets.weatherPage 0.5%float _)).
  left. exists [0; 0.5]%float. split; [right; left; vm_compute; reflexivity|].
  right. left. reflexivity.
Defined.

(** X5.  [multRowVecMat] always returns one entry per row of the matrix.
    Entries of the vector beyond that number are ignored; and in binary64 a
    vector that is too short makes every entry of the result NaN, which then
    stays NaN under further products.  The page gets there: [addState] grows
    the matrix but not the session vector [p], so on a lock-step page the
    first valid Step after Add State (without a Reset) turns the whole
    distribution into NaN. *)
Theorem mismatched_session :
  (forall (R : Type) (N : JsNumber R) (v extra : list R) (M : list (list R)),
      length (multRowVecMat v M) = length M /\
      (length v = length M ->
       multRowVecMat (v ++ extra) M = multRowVecMat v M)) /\
  (forall (v : list float) (M : list (list float)),
      length v < length M ->
      multRowVecMat v M = repeat nan (length M)) /\
  (forall (M : list (list float)),
      1 <= length M ->
      multRowVecMat (repeat nan (length M)) M = repeat nan (length M)) /\
  (forall (s s' : state float) (d : dom float),
      lockStep s ->
      length (p s) = length (labels s) ->
      addState s = Some s' ->
      isRowStochastic (P (syncFromInputs d s')) lit1e_9 = true ->
      p (stepOnce d s') = repeat nan (length (labels s) + 1)).
Proof.
  split; [|split; [|split]].
  - intros R N v extra M. split; [apply multRowVecMat_length|].
    apply multRowVecMat_ignores_tail.
  - exact binary64_short_vector.
  - intros M Hn. unfold multRowVecMat.
    transitivity (repeat nan (length (seq 0 (length M))));
      [|rewrite length_seq; reflexivity].
    apply map_all_equal. intro j. unfold dotColumn.
    apply (binary64_sum_hits_nan nat
             (fun k => mul (at_ (repeat nan (length M)) k) (at_ (rowAt M k) j))).
    exists 0. split; [apply in_seq; lia|].
    destruct (length M) as [|n]; [lia|]. apply binary64_nan_mul.
  - intros s s' d Hwf Hp Hadd Hok.
    pose proof Hwf as (_ & _ & Hrows & _).
    rewrite (addState_grows s Hrows) in Hadd. injection Hadd as <-.
    rewrite (stepOnce_valid d _ Hok). cbn [p withSession].
    assert (Hlen : length (P (syncFromInputs d
                     (withConfig (labels s ++ [stateName (length (labels s) + 1)])
                                 (grown (P s) (length (labels s)))
                                 (p0 s ++ [lit0]) s)))
                   = length (labels s) + 1).
    { unfold syncFromInputs. cbn [P withConfig]. rewrite imap_length.
      unfold grown. rewrite length_app, length_map, Hrows. reflexivity. }
    rewrite <- Hlen. apply binary64_short_vector.
    rewrite Hlen. cbn [p withConfig syncFromInputs]. lia.
Qed.

(** The weather page after Add State: the next Step gives three NaN. *)
Lemma mismatched_session_witness :
  exists s',
    addState FloatPresets.weatherPage = Some s' /\
    isRowStochastic (P (syncFromInputs (shown s' 0%float) s')) lit1e_9 = true /\
    p (stepOnce (shown s' 0%float) s') = [nan; nan; nan].
Proof.
  assert (Hwf : lockStep FloatPresets.weatherPage).
  { unfold lockStep. simpl. repeat split; try lia. repeat constructor. }
  destruct (addState FloatPresets.weatherPage) as [s'|] eqn:Hadd;
    [|vm_compute in Hadd; discriminate].
  exists s'. split; [reflexivity|].
  assert (Hok : isRowStochastic (P (syncFromInputs (shown s' 0%float) s')) lit1e_9 = true).
  { vm_compute in Hadd. injection Hadd as <-. vm_compute. reflexivity. }
  split; [exact Hok|].
  exact (proj2 (proj2 (proj2 mismatched_session))
           FloatPresets.weatherPage s' (shown s' 0%float) Hwf eq_refl Hadd Hok).
Defined.

(** ** Several steps *)

Section StepsFacts.

Context {R : Type} `{JsNumber R}.

Lemma steps_compose (d : dom R) (s : state R) :
  isRowStochastic (P (syncFromInputs d s)) lit1e_9 = true ->
  forall k,
    let sk := Nat.iter k (stepOnce d) s in
    p sk = iterate (P (syncFromInputs d s)) (p s) k /\
    stepIdx sk = stepIdx s + k /\
    P (syncFromInputs d sk) = P (syncFromInputs d s) /\
    analysis sk = analysis s.
Proof.
  intros Hok k. induction k as [|k IH]; cbn zeta.
  - repeat split. cbn. lia.
  - cbn zeta in IH. destruct IH as (Hp & Ht & HP & Ha).
    cbn [Nat.iter nat_rect].
    change (nat_rect (fun _ => state R) s (fun _ => stepOnce d) k)
      with (Nat.iter k (stepOnce d) s).
    set (sk := Nat.iter k (stepOnce d) s) in *.
    assert (Hok' : isRowStochastic (P (syncFromInputs d sk)) lit1e_9 = true)
      by (rewrite HP; exact Hok).
    rewrite sync_after_step, (stepOnce_valid d sk Hok').
    cbn [p stepIdx analysis withSession]. rewrite HP, Hp, Ht.
    repeat split; [lia | exact Ha].
Qed.

End StepsFacts.

(** X6.  Step composes: as long as the inputs are not edited and the matrix
    they hold passes the check, [k] clicks on Step turn [p] into [p P^k], add
    [k] to the step counter and log nothing. *)
Theorem stepOnce_repeated :
  forall (R : Type) (N : JsNumber R) (d : dom R) (s : state R) (k : nat),
    isRowStochastic (P (syncFromInputs d s)) lit1e_9 = true ->
    p (Nat.iter k (stepOnce d) s) = iterate (P (syncFromInputs d s)) (p s) k /\
    stepIdx (Nat.iter k (stepOnce d) s) = stepIdx s + k /\
    analysis (Nat.iter k (stepOnce d) s) = analysis s.
Proof.
  intros R N d s k Hok.
  destruct (steps_compose d s Hok k) as (Hp & Ht & _ & Ha).
  repeat split; assumption.
Qed.

(** Three steps on the weather page, in binary64. *)
Lemma stepOnce_repeated_witness :
  stepIdx (Nat.iter 3 (stepOnce FloatPresets.weatherInputs) FloatPresets.weatherPage) = 3 /\
  p (Nat.iter 3 (stepOnce FloatPresets.weatherInputs) FloatPresets.weatherPage)
  = iterate FloatPresets.weather [1; 0]%float 3.
Proof.
  assert (Hok : isRowStochastic
                  (P (syncFromInputs FloatPresets.weatherInputs FloatPresets.weatherPage))
                  lit1e_9 = true) by (vm_compute; reflexivity).
  destruct (stepOnce_repeated float _ FloatPresets.weatherInputs
              FloatPresets.weatherPage 3 Hok) as (Hp & Ht & _).
  split; [exact Ht|]. rewrite Hp. vm_compute. reflexivity.
Defined.

(** ** The run loop on an invalid matrix *)

Section RunawayFacts.

Context {R : Type} `{JsNumber R}.

Lemma fire_armed (d : dom R) (w : world R) (id : positive) (m : R) :
  armed w = [(id, m)] ->
  fire d w = tick m d (mkWorld (page w) [] (nextHandle w)).
Proof.
  intro Ha. unfold fire. rewrite Ha. cbn [handle fst].
  rewrite Ha. cbn [find fst snd]. rewrite Pos.eqb_refl.
  rewrite clearTimeout_single. reflexivity.
Qed.

Lemma fire_nothing (d : dom R) (w : world R) : armed w = [] -> fire d w = w.
Proof. intro Ha. unfold fire. rewrite Ha. reflexivity. Qed.

Lemma sync_after_toast (d : dom R) (s : state R) :
  P (syncFromInputs d (toast invalidMatrix Warn (syncFromInputs d s)))
  = P (syncFromInputs d s).
Proof.
  transitivity (P (syncFromInputs d (syncFromInputs d s)));
    [reflexivity | rewrite sync_twice; reflexivity].
Qed.

Lemma tick_invalid (m : R) (d : dom R) (w : world R) :
  running (page w) = true ->
  isRowStochastic (P (syncFromInputs d (page w))) lit1e_9 = false ->
  le m (ofNat (stepIdx (page w))) = false ->
  tick m d w =
  setTimeout m (mkWorld (toast invalidMatrix Warn (syncFromInputs d (page w)))
                        (armed w) (nextHandle w)).
Proof.
  intros Hrun Hbad Hbelow. unfold tick. rewrite Hrun. cbn [negb page armed nextHandle].
  rewrite (stepOnce_invalid d (page w) Hbad).
  change (stepIdx (toast invalidMatrix Warn (syncFromInputs d (page w))))
    with (stepIdx (page w)).
  rewrite Hbelow. reflexivity.
Qed.

Lemma runaway (d : dom R) (m : R) (w : world R) :
  running (page w) = true ->
  (exists id, armed w = [(id, m)]) ->
  isRowStochastic (P (syncFromInputs d (page w))) lit1e_9 = false ->
  le m (ofNat (stepIdx (page w))) = false ->
  forall k,
    let wk := Nat.iter k (fire d) w in
    running (page wk) = true /\
    (exists id, armed wk = [(id, m)]) /\
    P (syncFromInputs d (page wk)) = P (syncFromInputs d (page w)) /\
    stepIdx (page wk) = stepIdx (page w) /\
    p (page wk) = p (page w) /\
    analysis (page wk) = analysis (page w) ++ repeat invalidWarning k.
Proof.
  intros Hrun Harmed Hbad Hbelow k. induction k as [|k IH]; cbn zeta.
  - repeat split; try assumption. cbn. rewrite app_nil_r. reflexivity.
  - cbn zeta in IH. destruct IH as (Hr & (id & Ha) & HP & Ht & Hp & Hlog).
    cbn [Nat.iter nat_rect].
    change (nat_rect (fun _ => world R) w (fun _ => fire d) k)
      with (Nat.iter k (fire d) w).
    set (wk := Nat.iter k (fire d) w) in *.
    rewrite (fire_armed d wk id m Ha).
    rewrite tick_invalid;
      [| exact Hr | cbn [page]; rewrite HP; exact Hbad
       | cbn [page]; rewrite Ht; exact Hbelow].
    unfold setTimeout. cbn [page armed nextHandle app].
    split; [exact Hr|]. split; [eexists; reflexivity|].
    split; [|split; [exact Ht|split; [exact Hp|]]].
    + change (P (syncFromInputs d (toast invalidMatrix Warn (syncFromInputs d (page wk))))
              = P (syncFromInputs d (page w))).
      rewrite sync_after_toast. exact HP.
    + change (analysis (page wk) ++ [invalidWarning]
              = analysis (page w) ++ repeat invalidWarning (S k)).
      rewrite Hlog, <- app_assoc. f_equal.
      symmetry. exact (repeat_cons k invalidWarning).
Qed.

End RunawayFacts.

(** X7.  With an invalid matrix in the inputs the run loop never ends on its
    own: Run, then every timeout that fires, logs one more warning and arms
    the next timeout, while the distribution and the step counter stay put
    (so the counter never reaches [maxSteps]).  Only Pause, or the tab being
    hidden, stops it. *)
Theorem run_on_invalid_matrix_never_stops :
  forall (R : Type) (N : JsNumber R) (d : dom R) (w : world R) (k : nat),
    running (page w) = false ->
    armed w = [] ->
    isRowStochastic (P (syncFromInputs d (page w))) lit1e_9 = false ->
    le (runLimit d) (ofNat (stepIdx (page w))) = false ->
    let wk := Nat.iter k (fire d) (handle w (ClickRun d)) in
    running (page wk) = true /\
    (exists id, armed wk = [(id, runLimit d)]) /\
    stepIdx (page wk) = stepIdx (page w) /\
    p (page wk) = p (page w) /\
    analysis (page wk) = analysis (page w) ++ repeat invalidWarning (k + 1).
Proof.
  intros R N d w k Hoff Hnil Hbad Hbelow wk.
  assert (Hrun : handle w (ClickRun d) =
                 tick (runLimit d) d
                      (mkWorld (withRunning true (page w)) (armed w) (nextHandle w))).
  { cbn [handle]. unfold run. rewrite Hoff. reflexivity. }
  assert (Hfirst : handle w (ClickRun d) =
                   setTimeout (runLimit d)
                     (mkWorld (toast invalidMatrix Warn
                                 (syncFromInputs d (withRunning true (page w))))
                              (armed w) (nextHandle w))).
  { rewrite Hrun.
    exact (tick_invalid (runLimit d) d
             (mkWorld (withRunning true (page w)) (armed w) (nextHandle w))
             eq_refl Hbad Hbelow). }
  set (w1 := handle w (ClickRun d)) in *.
  assert (H1 : running (page w1) = true /\
               (exists id, armed w1 = [(id, runLimit d)]) /\
               P (syncFromInputs d (page w1)) = P (syncFromInputs d (page w)) /\
               stepIdx (page w1) = stepIdx (page w) /\
               p (page w1) = p (page w) /\
               analysis (page w1) = analysis (page w) ++ [invalidWarning]).
  { rewrite Hfirst. unfold setTimeout. cbn [page armed]. rewrite Hnil.
    split; [reflexivity|]. split; [eexists; reflexivity|].
    split; [|repeat split].
    change (P (syncFromInputs d (toast invalidMatrix Warn (syncFromInputs d (page w))))
            = P (syncFromInputs d (page w))).
    apply sync_after_toast. }
  destruct H1 as (Hr1 & Ha1 & HP1 & Ht1 & Hp1 & Hlog1).
  destruct (runaway d (runLimit d) w1 Hr1 Ha1
              ltac:(rewrite HP1; exact Hbad) ltac:(rewrite Ht1; exact Hbelow) k)
    as (Hr & Ha & _ & Ht & Hp & Hlog).
  fold wk in Hr, Ha, Ht, Hp, Hlog.
  split; [exact Hr|]. split; [exact Ha|].
  split; [rewrite Ht; exact Ht1|]. split; [rewrite Hp; exact Hp1|].
  rewrite Hlog, Hlog1, <- app_assoc. f_equal.
  rewrite Nat.add_comm. reflexivity.
Qed.

(** Run on the page that shows the invalid matrix, then two timeouts: three
    warnings, the session as it was. *)
Lemma run_on_invalid_matrix_never_stops_witness :
  running (page (Nat.iter 2 (fire FloatPresets.invalidInputs)
                   (handle (mkWorld FloatPresets.invalidPage [] 1%positive)
                           (ClickRun FloatPresets.invalidInputs)))) = true /\
  length (analysis (page (Nat.iter 2 (fire FloatPresets.invalidInputs)
                   (handle (mkWorld FloatPresets.invalidPage [] 1%positive)
                           (ClickRun FloatPresets.invalidInputs))))) = 3 /\
  stepIdx (page (Nat.iter 2 (fire FloatPresets.invalidInputs)
                   (handle (mkWorld FloatPresets.invalidPage [] 1%positive)
                           (ClickRun FloatPresets.invalidInputs)))) = 5.
Proof.
  assert (Hbad : isRowStochastic
                   (P (syncFromInputs FloatPresets.invalidInputs
                         (page (mkWorld FloatPresets.invalidPage [] 1%positive))))
                   lit1e_9 = false) by (vm_compute; reflexivity).
  assert (Hbelow : le (runLimit FloatPresets.invalidInputs)
                      (ofNat (stepIdx (page (mkWorld FloatPresets.invalidPage []
                                               1%positive)))) = false)
    by (vm_compute; reflexivity).
  destruct (run_on_invalid_matrix_never_stops float _ FloatPresets.invalidInputs
              (mkWorld FloatPresets.invalidPage [] 1%positive) 2
              eq_refl eq_refl Hbad Hbelow) as (Hr & _ & Ht & _ & Hlog).
  split; [exact Hr|]. split; [rewrite Hlog; reflexivity | exact Ht].
Defined.

(** ** Clamping *)

Lemma exact_orderLaws : OrderLaws Qc.
Proof.
  split.
  - intros a b Hlt. apply exact_le_iff, Qclt_le_weak, exact_lt_iff, Hlt.
  - intros a _. apply exact_le_iff, Qcle_refl.
Qed.

Lemma binary64_orderLaws : OrderLaws float.
Proof.
  split.
  - intros a b Hlt. change (PrimFloat.ltb a b = true) in Hlt.
    change (PrimFloat.leb a b = true).
    rewrite FloatAxioms.ltb_spec in Hlt. rewrite FloatAxioms.leb_spec.
    unfold SFltb in Hlt. unfold SFleb.
    destruct (SFcompare (Prim2SF a) (Prim2SF b)) as [[| |]|];
      try discriminate; reflexivity.
  - intros a Hnan. change (PrimFloat.is_nan a = false) in Hnan.
    change (PrimFloat.leb a a = true).
    unfold PrimFloat.is_nan in Hnan. apply negb_false_iff in Hnan.
    rewrite FloatAxioms.eqb_spec in Hnan. rewrite FloatAxioms.leb_spec.
    unfold SFeqb in Hnan. unfold SFleb.
    destruct (SFcompare (Prim2SF a) (Prim2SF a)) as [[| |]|];
      try discriminate; reflexivity.
Qed.

Section ClampFacts.

Context {R : Type} `{JsNumber R}.

Hypothesis laws : OrderLaws R.

Lemma mathMin_number (a b : R) :
  isNaN a = false -> isNaN b = false ->
  mathMin a b = (if lt b a then b else a) /\
  isNaN (mathMin a b) = false /\
  le (mathMin a b) a = true.
Proof.
  intros Ha Hb. unfold mathMin. rewrite Ha, Hb. cbn [orb].
  split; [reflexivity|].
  destruct (lt b a) eqn:E; split; try assumption.
  - apply (lt_le laws). exact E.
  - apply (le_refl laws). exact Ha.
Qed.

Lemma clamp_number (x lo hi : R) :
  isNaN x = false -> isNaN lo = false -> isNaN hi = false ->
  le lo hi = true ->
  isNaN (clamp x lo hi) = false /\
  le lo (clamp x lo hi) = true /\ le (clamp x lo hi) hi = true.
Proof.
  intros Hx Hlo Hhi Hle. unfold clamp.
  destruct (mathMin_number hi x Hhi Hx) as (_ & Hm & Hmhi).
  unfold mathMax. rewrite Hlo, Hm. cbn [orb].
  destruct (lt lo (mathMin hi x)) eqn:E.
  - repeat split; [exact Hm | apply (lt_le laws); exact E | exact Hmhi].
  - repeat split; [exact Hlo | apply (le_refl laws); exact Hlo | exact Hle].
Qed.

Lemma clamp_nan (x lo hi : R) :
  isNaN NaN = true -> isNaN x = true -> clamp x lo hi = NaN.
Proof.
  intros Hnan Hx. unfold clamp, mathMax, mathMin.
  rewrite Hx, orb_true_r, Hnan, orb_true_r. reflexivity.
Qed.

Lemma orElse_number (x y : R) : isNaN y = false -> isNaN (orElse x y) = false.
Proof.
  intro Hy. unfold orElse. destruct (isNaN x) eqn:E; cbn [orb]; [exact Hy|].
  destruct (le x lit0 && le lit0 x); assumption.
Qed.

Lemma runLimit_number (d : dom R) :
  isNaN lit1 = false -> isNaN (ofNat 2000) = false -> isNaN (ofNat 200) = false ->
  le lit1 (ofNat 2000) = true ->
  le lit1 (runLimit d) = true /\ le (runLimit d) (ofNat 2000) = true.
Proof.
  intros H1 H2000 H200 Hle.
  exact (proj2 (clamp_number (orElse (maxStepsValue d) (ofNat 200)) lit1 (ofNat 2000)
                  (orElse_number _ _ H200) H1 H2000 Hle)).
Qed.

End ClampFacts.

(** X8.  [clamp(x, lo, hi)] with [lo <= hi] and no NaN among the three
    returns a number between [lo] and [hi], in exact arithmetic and in
    binary64; a NaN [x] is not clamped but returned as NaN. *)
Theorem clamp_spec :
  (forall x lo hi : Qc,
      (lo <= hi)%Qc ->
      (lo <= clamp x lo hi)%Qc /\ (clamp x lo hi <= hi)%Qc) /\
  (forall x lo hi : float,
      PrimFloat.is_nan x = false -> PrimFloat.is_nan lo = false ->
      PrimFloat.is_nan hi = false -> PrimFloat.leb lo hi = true ->
      PrimFloat.is_nan (clamp x lo hi) = false /\
      PrimFloat.leb lo (clamp x lo hi) = true /\
      PrimFloat.leb (clamp x lo hi) hi = true) /\
  (forall x lo hi : float,
      PrimFloat.is_nan x = true -> PrimFloat.is_nan (clamp x lo hi) = true).
Proof.
  split; [|split].
  - intros x lo hi Hle.
    destruct (clamp_number exact_orderLaws x lo hi eq_refl eq_refl eq_refl
                (proj2 (exact_le_iff lo hi) Hle)) as (_ & H1 & H2).
    split; apply exact_le_iff; assumption.
  - intros x lo hi Hx Hlo Hhi Hle.
    exact (clamp_number binary64_orderLaws x lo hi Hx Hlo Hhi Hle).
  - intros x lo hi Hx.
    assert (Hnan : isNaN (NaN : float) = true) by (vm_compute; reflexivity).
    rewrite (clamp_nan x lo hi Hnan Hx). exact Hnan.
Qed.

(** The opacity of an edge of probability 0.9: [clamp(0.25 + 0.9*0.9, 0.2, 1)]
    is one. *)
Lemma clamp_spec_witness :
  PrimFloat.leb (clamp (0.25 + 0.9 * 0.9)%float 0.2%float 1%float) 1%float = true /\
  clamp (0.25 + 0.9 * 0.9)%float 0.2%float 1%float = 1%float.
Proof.
  split; [|vm_compute; reflexivity].
  refine (proj2 (proj2 (proj1 (proj2 clamp_spec)
                           (0.25 + 0.9 * 0.9)%float 0.2%float 1%float _ _ _ _)));
    vm_compute; reflexivity.
Defined.

(** X9.  Whatever the [#maxSteps] input holds (nothing, text, zero, a
    negative or a huge number), the limit [run] computes from it lies between
    1 and 2000, in exact arithmetic and in binary64. *)
Theorem runLimit_bounds :
  (forall (R : Type) (N : JsNumber R) (w : world R) (d : dom R),
      running (page w) = false ->
      handle w (ClickRun d) =
      tick (runLimit d) d (mkWorld (withRunning true (page w)) (armed w) (nextHandle w))) /\
  (forall d : dom Qc,
      (1 <= runLimit d)%Qc /\ (runLimit d <= Exact.dec 2000 1)%Qc) /\
  (forall d : dom float,
      PrimFloat.leb 1%float (runLimit d) = true /\
      PrimFloat.leb (runLimit d) 2000%float = true).
Proof.
  split; [|split].
  - intros R N w d Hoff. cbn [handle]. unfold run. rewrite Hoff. reflexivity.
  - intro d.
    assert (Hle : le (lit1 : Qc) (ofNat 2000) = true) by (vm_compute; reflexivity).
    destruct (runLimit_number exact_orderLaws d eq_refl eq_refl eq_refl Hle)
      as [H1 H2].
    split; apply exact_le_iff; assumption.
  - intro d.
    assert (Hn1 : isNaN (lit1 : float) = false) by (vm_compute; reflexivity).
    assert (Hn2 : isNaN (ofNat 2000 : float) = false) by (vm_compute; reflexivity).
    assert (Hn3 : isNaN (ofNat 200 : float) = false) by (vm_compute; reflexivity).
    assert (Hle : le (lit1 : float) (ofNat 2000) = true) by (vm_compute; reflexivity).
    assert (E : (ofNat 2000 : float) = 2000%float) by (vm_compute; reflexivity).
    destruct (runLimit_number binary64_orderLaws d Hn1 Hn2 Hn3 Hle) as [H1 H2].
    rewrite E in H2. split; assumption.
Qed.

(** An empty [#maxSteps] input reads as 0 and gives the limit 200. *)
Lemma runLimit_bounds_witness :
  handle (mkWorld FloatPresets.invalidPage [] 1%positive)
         (ClickRun FloatPresets.invalidInputs)
  = tick (runLimit FloatPresets.invalidInputs) FloatPresets.invalidInputs
         (mkWorld (withRunning true FloatPresets.invalidPage) [] 1%positive) /\
  runLimit FloatPresets.invalidInputs = 200%float.
Proof.
  split; [|vm_compute; reflexivity].
  exact (proj1 runLimit_bounds float _
           (mkWorld FloatPresets.invalidPage [] 1%positive)
           FloatPresets.invalidInputs eq_refl).
Defined.

(** ** The run loop up to its limit *)

Section RunLimitFacts.

Context {R : Type} `{JsNumber R}.

Lemma fire_stopped (d : dom R) (w : world R) (n : nat) :
  armed w = [] -> Nat.iter n (fire d) w = w.
Proof.
  intro Hnil. induction n as [|n IH]; [reflexivity|].
  cbn [Nat.iter nat_rect].
  change (nat_rect (fun _ => world R) w (fun _ => fire d) n)
    with (Nat.iter n (fire d) w).
  rewrite IH. apply fire_nothing. exact Hnil.
Qed.

Lemma tick_valid_result (m : R) (d : dom R) (w : world R) :
  running (page w) = true ->
  armed w = [] ->
  isRowStochastic (P (syncFromInputs d (page w))) lit1e_9 = true ->
  stepIdx (page (tick m d w)) = stepIdx (page w) + 1 /\
  p (page (tick m d w)) = multRowVecMat (p (page w)) (P (syncFromInputs d (page w))) /\
  P (syncFromInputs d (page (tick m d w))) = P (syncFromInputs d (page w)) /\
  analysis (page (tick m d w)) = analysis (page w) /\
  (if le m (ofNat (stepIdx (page w) + 1))
   then running (page (tick m d w)) = false /\ armed (tick m d w) = []
   else running (page (tick m d w)) = true /\
        exists id, armed (tick m d w) = [(id, m)]).
Proof.
  intros Hrun Hnil Hok. unfold tick. rewrite Hrun. cbn [negb page armed nextHandle].
  rewrite (stepOnce_valid d (page w) Hok). cbn [stepIdx withSession].
  assert (Htwice : P (syncFromInputs d (syncFromInputs d (page w)))
                   = P (syncFromInputs d (page w)))
    by (rewrite sync_twice; reflexivity).
  destruct (le m (ofNat (stepIdx (page w) + 1))).
  - unfold pause. cbn [page armed nextHandle timer withRunning withSession].
    destruct (timer (syncFromInputs d (page w))); cbn [page armed];
      rewrite ?Hnil; repeat split; exact Htwice.
  - unfold setTimeout. cbn [page armed nextHandle]. rewrite Hnil.
    repeat split; [exact Htwice | exact Hrun | eexists; reflexivity].
Qed.

Lemma run_loop (d : dom R) (w : world R) :
  running (page w) = false ->
  armed w = [] ->
  isRowStochastic (P (syncFromInputs d (page w))) lit1e_9 = true ->
  forall k,
    (forall j, j < k -> le (runLimit d) (ofNat (stepIdx (page w) + 1 + j)) = false) ->
    let wk := Nat.iter k (fire d) (handle w (ClickRun d)) in
    stepIdx (page wk) = stepIdx (page w) + 1 + k /\
    p (page wk) = iterate (P (syncFromInputs d (page w))) (p (page w)) (S k) /\
    P (syncFromInputs d (page wk)) = P (syncFromInputs d (page w)) /\
    analysis (page wk) = analysis (page w) /\
    (if le (runLimit d) (ofNat (stepIdx (page w) + 1 + k))
     then running (page wk) = false /\ armed wk = []
     else running (page wk) = true /\ exists id, armed wk = [(id, runLimit d)]).
Proof.
  intros Hoff Hnil Hok k. induction k as [|k IH]; intros Hbelow; cbn zeta.
  - cbn [Nat.iter nat_rect handle]. unfold run. rewrite Hoff.
    rewrite !Nat.add_0_r.
    exact (tick_valid_result (runLimit d) d
             (mkWorld (withRunning true (page w)) (armed w) (nextHandle w))
             eq_refl Hnil Hok).
  - cbn zeta in IH.
    destruct (IH (fun j Hj => Hbelow j (Nat.lt_lt_succ_r _ _ Hj)))
      as (Ht & Hp & HP & Hlog & Hstate).
    rewrite (Hbelow k (Nat.lt_succ_diag_r k)) in Hstate.
    destruct Hstate as (Hr & id & Ha).
    cbn [Nat.iter nat_rect].
    change (nat_rect (fun _ => world R) (handle w (ClickRun d)) (fun _ => fire d) k)
      with (Nat.iter k (fire d) (handle w (ClickRun d))).
    set (wk := Nat.iter k (fire d) (handle w (ClickRun d))) in *.
    rewrite (fire_armed d wk id (runLimit d) Ha).
    destruct (tick_valid_result (runLimit d) d
                (mkWorld (page wk) [] (nextHandle wk)) Hr eq_refl
                ltac:(cbn [page]; rewrite HP; exact Hok))
      as (Ht' & Hp' & HP' & Hlog' & Hstate').
    cbn [page] in Ht', Hp', HP', Hlog', Hstate'.
    rewrite Ht in Ht', Hstate'. rewrite HP, Hp in Hp'. rewrite HP in HP'.
    replace (stepIdx (page w) + 1 + k + 1) with (stepIdx (page w) + 1 + S k)
      in Ht', Hstate' by lia.
    split; [exact Ht'|]. split; [exact Hp'|]. split; [exact HP'|].
    split; [rewrite Hlog'; exact Hlog | exact Hstate'].
Qed.

End RunLimitFacts.

Lemma exact_ofNat_le (a b : nat) : le (ofNat a : Qc) (ofNat b) = true <-> a <= b.
Proof.
  change (le (ofNat a : Qc) (ofNat b)) with (Exact.leb (ofNat a) (ofNat b)).
  rewrite exact_le_iff. unfold Qcle.
  change (this (ofNat a)) with (Qred (inject_Z (Z.of_nat a))).
  change (this (ofNat b)) with (Qred (inject_Z (Z.of_nat b))).
  rewrite !Qred_correct, <- Zle_Qle. lia.
Qed.

Lemma exact_ofNat_lt (a b : nat) : lt (ofNat a : Qc) (ofNat b) = true <-> a < b.
Proof.
  change (lt (ofNat a : Qc) (ofNat b)) with (Exact.ltb (ofNat a) (ofNat b)).
  rewrite exact_lt_iff. unfold Qclt.
  change (this (ofNat a)) with (Qred (inject_Z (Z.of_nat a))).
  change (this (ofNat b)) with (Qred (inject_Z (Z.of_nat b))).
  rewrite !Qred_correct, <- Zlt_Qlt. lia.
Qed.

Lemma exact_ofNat_inj (a b : nat) : a = b -> (ofNat a : Qc) = ofNat b.
Proof. intros ->. reflexivity. Qed.

Lemma exact_runLimit_integer (d : dom Qc) (n : nat) :
  maxStepsValue d = ofNat n -> 1 <= n <= 2000 -> runLimit d = ofNat n.
Proof.
  intros Hd [H1 H2]. unfold runLimit. rewrite Hd.
  assert (E0 : orElse (ofNat n : Qc) (ofNat 200) = ofNat n).
  { unfold orElse. cbn [isNaN Exact.jsNumber orb].
    change (lit0 : Qc) with (ofNat 0 : Qc).
    destruct (le (ofNat n : Qc) (ofNat 0)) eqn:E; [|reflexivity].
    apply exact_ofNat_le in E. lia. }
  rewrite E0.
  assert (E1 : mathMin (ofNat 2000 : Qc) (ofNat n) = ofNat n).
  { unfold mathMin. cbn [isNaN Exact.jsNumber orb].
    destruct (lt (ofNat n : Qc) (ofNat 2000)) eqn:E; [reflexivity|].
    apply exact_ofNat_inj.
    destruct (Nat.eq_dec n 2000) as [->|Hne]; [reflexivity|].
    assert (Hlt : lt (ofNat n : Qc) (ofNat 2000) = true)
      by (apply exact_ofNat_lt; lia).
    congruence. }
  rewrite E1. unfold mathMax. cbn [isNaN Exact.jsNumber orb].
  change (lit1 : Qc) with (ofNat 1 : Qc).
  destruct (lt (ofNat 1 : Qc) (ofNat n)) eqn:E; [reflexivity|].
  apply exact_ofNat_inj.
  destruct (Nat.eq_dec n 1) as [->|Hne]; [reflexivity|].
  assert (Hlt : lt (ofNat 1 : Qc) (ofNat n) = true) by (apply exact_ofNat_lt; lia).
  congruence.
Qed.

(** X10.  On a stopped page whose inputs hold a valid matrix, Run takes one
    step at once and one more at every timeout, each time comparing the
    page's step counter (not the number of steps of this run) with the limit:
    while the counter is below the limit the loop stays armed, and at the
    first counter value that reaches it the loop pauses and disarms.  In
    exact arithmetic with an integer limit [n] in [1, 2000]: from a counter
    [t < n] the run ends with the counter at exactly [n], after [n - t]
    steps, and further timeouts change nothing; from a counter [t >= n] Run
    still takes one step before it stops. *)
Theorem run_stops_at_limit :
  (forall (R : Type) (N : JsNumber R) (d : dom R) (w : world R) (k : nat),
      running (page w) = false ->
      armed w = [] ->
      isRowStochastic (P (syncFromInputs d (page w))) lit1e_9 = true ->
      (forall j, j < k ->
                 le (runLimit d) (ofNat (stepIdx (page w) + 1 + j)) = false) ->
      let wk := Nat.iter k (fire d) (handle w (ClickRun d)) in
      stepIdx (page wk) = stepIdx (page w) + 1 + k /\
      p (page wk) = iterate (P (syncFromInputs d (page w))) (p (page w)) (S k) /\
      (if le (runLimit d) (ofNat (stepIdx (page w) + 1 + k))
       then running (page wk) = false /\ armed wk = []
       else running (page wk) = true /\ exists id, armed wk = [(id, runLimit d)])) /\
  (forall (d : dom Qc) (w : world Qc) (n : nat),
      running (page w) = false ->
      armed w = [] ->
      isRowStochastic (P (syncFromInputs d (page w))) lit1e_9 = true ->
      maxStepsValue d = ofNat n -> 1 <= n <= 2000 ->
      let t := stepIdx (page w) in
      (t < n ->
       let wn := Nat.iter (n - t - 1) (fire d) (handle w (ClickRun d)) in
       stepIdx (page wn) = n /\
       p (page wn) = iterate (P (syncFromInputs d (page w))) (p (page w)) (n - t) /\
       running (page wn) = false /\ armed wn = [] /\
       (forall extra, Nat.iter extra (fire d) wn = wn) /\
       (forall k, k < n - t - 1 ->
                  running (page (Nat.iter k (fire d) (handle w (ClickRun d)))) = true)) /\
      (n <= t ->
       stepIdx (page (handle w (ClickRun d))) = t + 1 /\
       running (page (handle w (ClickRun d))) = false /\
       armed (handle w (ClickRun d)) = [])).
Proof.
  split.
  - intros R N d w k Hoff Hnil Hok Hbelow wk.
    destruct (run_loop d w Hoff Hnil Hok k Hbelow) as (Ht & Hp & _ & _ & Hstate).
    split; [exact Ht|]. split; [exact Hp | exact Hstate].
  - intros d w n Hoff Hnil Hok Hd Hn t.
    pose proof (exact_runLimit_integer d n Hd Hn) as Hlim.
    assert (Hcmp : forall c, le (runLimit d) (ofNat c) = true <-> n <= c)
      by (intro c; rewrite Hlim; apply exact_ofNat_le).
    assert (Hnot : forall c, c < n -> le (runLimit d) (ofNat c) = false).
    { intros c Hc. destruct (le (runLimit d) (ofNat c)) eqn:E; [|reflexivity].
      apply Hcmp in E. lia. }
    split.
    + intros Htn wn.
      assert (Hbelow : forall k j, k <= n - t - 1 -> j < k ->
                le (runLimit d) (ofNat (stepIdx (page w) + 1 + j)) = false).
      { intros k j Hk Hj. apply Hnot. fold t. lia. }
      destruct (run_loop d w Hoff Hnil Hok (n - t - 1)
                  (fun j Hj => Hbelow (n - t - 1) j (Nat.le_refl _) Hj))
        as (Ht & Hp & _ & _ & Hstate).
      fold wn in Ht, Hp, Hstate. fold t in Ht, Hstate.
      replace (t + 1 + (n - t - 1)) with n in Ht, Hstate by lia.
      replace (S (n - t - 1)) with (n - t) in Hp by lia.
      rewrite (proj2 (Hcmp n) (Nat.le_refl n)) in Hstate.
      destruct Hstate as [Hr Ha].
      split; [exact Ht|]. split; [exact Hp|]. split; [exact Hr|].
      split; [exact Ha|]. split.
      * intro extra. apply fire_stopped. exact Ha.
      * intros k Hk.
        destruct (run_loop d w Hoff Hnil Hok k
                    (fun j Hj => Hbelow k j (Nat.lt_le_incl _ _ Hk) Hj))
          as (_ & _ & _ & _ & Hstate').
        rewrite Hnot in Hstate' by (fold t; lia).
        exact (proj1 Hstate').
    + intro Hnt.
      destruct (run_loop d w Hoff Hnil Hok 0 (fun j Hj => False_ind _ (Nat.nlt_0_r j Hj)))
        as (Ht & _ & _ & _ & Hstate).
      cbn [Nat.iter nat_rect] in Ht, Hstate.
      rewrite Nat.add_0_r in Ht, Hstate.
      rewrite (proj2 (Hcmp (stepIdx (page w) + 1))) in Hstate by (fold t; lia).
      destruct Hstate as [Hr Ha]. repeat split; assumption.
Qed.

(** The weather page with a limit of 3, in binary64: Run and two timeouts
    take three steps and the loop has paused. *)
Lemma run_stops_at_limit_witness :
  stepIdx (page (Nat.iter 2 (fire (shown FloatPresets.weatherPage 3%float))
                   (handle (mkWorld FloatPresets.weatherPage [] 1%positive)
                           (ClickRun (shown FloatPresets.weatherPage 3%float))))) = 3 /\
  running (page (Nat.iter 2 (fire (shown FloatPresets.weatherPage 3%float))
                   (handle (mkWorld FloatPresets.weatherPage [] 1%positive)
                           (ClickRun (shown FloatPresets.weatherPage 3%float))))) = false.
Proof.
  assert (Hok : isRowStochastic
                  (P (syncFromInputs (shown FloatPresets.weatherPage 3%float)
                        (page (mkWorld FloatPresets.weatherPage [] 1%positive))))
                  lit1e_9 = true) by (vm_compute; reflexivity).
  assert (Hbelow : forall j, j < 2 ->
            le (runLimit (shown FloatPresets.weatherPage 3%float))
               (ofNat (stepIdx (page (mkWorld FloatPresets.weatherPage [] 1%positive))
                       + 1 + j)) = false).
  { intros j Hj. destruct j as [|[|j]]; [vm_compute; reflexivity .. | lia]. }
  destruct (proj1 run_stops_at_limit float _ (shown FloatPresets.weatherPage 3%float)
              (mkWorld FloatPresets.weatherPage [] 1%positive) 2
              eq_refl eq_refl Hok Hbelow) as (Ht & _ & Hstate).
  split; [exact Ht|].
  assert (Hreached : le (runLimit (shown FloatPresets.weatherPage 3%float))
                        (ofNat (stepIdx (page (mkWorld FloatPresets.weatherPage []
                                                 1%positive)) + 1 + 2)) = true)
    by (vm_compute; reflexivity).
  rewrite Hreached in Hstate. exact (proj1 Hstate).
Defined.

(** ** Escaping labels *)

Lemma escapeChar_cases (c : ascii) :
  (special c = false /\ escapeChar c = String c EmptyString) \/
  (c = ascii_of_nat 38 /\ escapeChar c = "&amp;"%string) \/
  (c = ascii_of_nat 60 /\ escapeChar c = "&lt;"%string) \/
  (c = ascii_of_nat 62 /\ escapeChar c = "&gt;"%string) \/
  (c = ascii_of_nat 34 /\ escapeChar c = "&quot;"%string) \/
  (c = ascii_of_nat 39 /\ escapeChar c = "&#39;"%string).
Proof.
  destruct c as [[] [] [] [] [] [] [] []]; vm_compute;
    first [ left; split; reflexivity
          | right; left; split; reflexivity
          | right; right; left; split; reflexivity
          | right; right; right; left; split; reflexivity
          | right; right; right; right; left; split; reflexivity
          | right; right; right; right; right; split; reflexivity ].
Qed.

Lemma special_cases (c : ascii) :
  special c = true <->
  c = ascii_of_nat 38 \/ c = ascii_of_nat 60 \/ c = ascii_of_nat 62 \/
  c = ascii_of_nat 34 \/ c = ascii_of_nat 39.
Proof.
  split.
  - destruct (escapeChar_cases c) as [[H _] | [[H _] | [[H _] | [[H _] | [[H _] | [H _]]]]]];
      [congruence | tauto ..].
  - intros [-> | [-> | [-> | [-> | ->]]]]; reflexivity.
Qed.

Lemma list_ascii_app (a b : string) :
  list_ascii_of_string (a ++ b) = list_ascii_of_string a ++ list_ascii_of_string b.
Proof.
  induction a as [|c a IH]; simpl; [reflexivity|]. rewrite IH. reflexivity.
Qed.

(** The characters that could end an attribute or open a tag. *)
Lemma escapeChar_harmless (c x : ascii) :
  In x (list_ascii_of_string (escapeChar c)) ->
  x <> ascii_of_nat 60 /\ x <> ascii_of_nat 62 /\
  x <> ascii_of_nat 34 /\ x <> ascii_of_nat 39.
Proof.
  destruct (escapeChar_cases c)
    as [[Hs ->] | [[_ ->] | [[_ ->] | [[_ ->] | [[_ ->] | [_ ->]]]]]]; simpl.
  - intros [<- | []].
    repeat split; intros ->; vm_compute in Hs; discriminate.
  - intro Hin. repeat (destruct Hin as [<- | Hin];
      [repeat split; intro E; vm_compute in E; discriminate|]). destruct Hin.
  - intro Hin. repeat (destruct Hin as [<- | Hin];
      [repeat split; intro E; vm_compute in E; discriminate|]). destruct Hin.
  - intro Hin. repeat (destruct Hin as [<- | Hin];
      [repeat split; intro E; vm_compute in E; discriminate|]). destruct Hin.
  - intro Hin. repeat (destruct Hin as [<- | Hin];
      [repeat split; intro E; vm_compute in E; discriminate|]). destruct Hin.
  - intro Hin. repeat (destruct Hin as [<- | Hin];
      [repeat split; intro E; vm_compute in E; discriminate|]). destruct Hin.
Qed.

Lemma escapeChar_prefix (c1 c2 : ascii) (r1 r2 : string) :
  (escapeChar c1 ++ r1 = escapeChar c2 ++ r2)%string -> c1 = c2 /\ r1 = r2.
Proof.
  destruct (escapeChar_cases c1)
    as [[H1 ->] | [[-> ->] | [[-> ->] | [[-> ->] | [[-> ->] | [-> ->]]]]]];
  destruct (escapeChar_cases c2)
    as [[H2 ->] | [[-> ->] | [[-> ->] | [[-> ->] | [[-> ->] | [-> ->]]]]]];
  simpl; intro E;
  try (injection E as E1 E2; subst;
       first [ split; reflexivity
             | vm_compute in H1; discriminate
             | vm_compute in H2; discriminate ]);
  try discriminate;
  try (injection E; intros; subst; split; reflexivity).
Qed.

(** X11.  [escapeHtml] leaves none of the characters [<], [>], double quote
    and apostrophe in its result, returns a string without any of the five
    special characters unchanged, and never maps two different strings to the
    same result. *)
Theorem escapeHtml_spec :
  (forall (str : string) (x : ascii),
      In x (list_ascii_of_string (escapeHtml str)) ->
      x <> ascii_of_nat 60 /\ x <> ascii_of_nat 62 /\
      x <> ascii_of_nat 34 /\ x <> ascii_of_nat 39) /\
  (forall str : string,
      forallb (fun c => negb (special c)) (list_ascii_of_string str) = true ->
      escapeHtml str = str) /\
  (forall s1 s2 : string, escapeHtml s1 = escapeHtml s2 -> s1 = s2).
Proof.
  split; [|split].
  - intros str x. induction str as [|c str IH]; simpl; [intros []|].
    rewrite list_ascii_app. intro Hin. apply in_app_or in Hin.
    destruct Hin as [Hin | Hin]; [exact (escapeChar_harmless c x Hin) | exact (IH Hin)].
  - intro str. induction str as [|c str IH]; simpl; [reflexivity|].
    intro Hall. apply andb_true_iff in Hall. destruct Hall as [Hc Hrest].
    apply negb_true_iff in Hc.
    destruct (escapeChar_cases c)
      as [[_ ->] | [[-> _] | [[-> _] | [[-> _] | [[-> _] | [-> _]]]]]];
      try (vm_compute in Hc; discriminate).
    simpl. rewrite (IH Hrest). reflexivity.
  - intro s1. induction s1 as [|c1 s1 IH]; intros [|c2 s2]; simpl; intro E.
    + reflexivity.
    + exfalso. destruct (escapeChar_cases c2)
        as [[_ K] | [[_ K] | [[_ K] | [[_ K] | [[_ K] | [_ K]]]]]];
        rewrite K in E; discriminate.
    + exfalso. destruct (escapeChar_cases c1)
        as [[_ K] | [[_ K] | [[_ K] | [[_ K] | [[_ K] | [_ K]]]]]];
        rewrite K in E; discriminate.
    + destruct (escapeChar_prefix c1 c2 _ _ E) as [-> Hrest].
      rewrite (IH s2 Hrest). reflexivity.
Qed.

(** A label with markup in it. *)
Lemma escapeHtml_spec_witness :
  escapeHtml "<b>R&D</b>" = "&lt;b&gt;R&amp;D&lt;/b&gt;"%string /\
  escapeHtml "Sunny" = "Sunny"%string.
Proof.
  split; [reflexivity|].
  apply (proj1 (proj2 escapeHtml_spec)). reflexivity.
Defined.

(** ** Editing one cell *)

Section EditFacts.

Context {R : Type} `{JsNumber R}.

Lemma setEntry_inside (row : list R) (j : nat) (v : R) :
  j < length row ->
  exists row',
    setEntry row j v = Some row' /\
    length row' = length row /\
    forall j', at_ row' j' = if Nat.eqb j' j then v else at_ row j'.
Proof.
  revert j. induction row as [|x row IH]; intros j Hj; [simpl in Hj; lia|].
  destruct j as [|j].
  - exists (v :: row). split; [reflexivity|]. split; [reflexivity|].
    intros [|j']; reflexivity.
  - destruct (IH j ltac:(simpl in Hj; lia)) as (row' & E & Hlen & Hget).
    exists (x :: row'). cbn [setEntry]. rewrite E. split; [reflexivity|].
    split; [simpl; rewrite Hlen; reflexivity|].
    intros [|j']; [reflexivity|]. exact (Hget j').
Qed.

Lemma setEntry_outside (row : list R) (j : nat) (v : R) :
  length row < j -> setEntry row j v = None.
Proof.
  revert j. induction row as [|x row IH]; intros j Hj.
  - destruct j; [simpl in Hj; lia | reflexivity].
  - destruct j as [|j]; [simpl in Hj; lia|].
    cbn [setEntry]. rewrite IH by (simpl in Hj; lia). reflexivity.
Qed.

Lemma setCell_inside (M : list (list R)) (i j : nat) (v : R) :
  i < length M -> j < length (rowAt M i) ->
  exists M',
    setCell M i j v = Some M' /\
    length M' = length M /\
    (forall i', length (rowAt M' i') = length (rowAt M i')) /\
    forall i' j',
      at_ (rowAt M' i') j' =
      if Nat.eqb i' i && Nat.eqb j' j then v else at_ (rowAt M i') j'.
Proof.
  revert i. induction M as [|row M IH]; intros i Hi Hj; [simpl in Hi; lia|].
  destruct i as [|i].
  - destruct (setEntry_inside row j v Hj) as (row' & E & Hlen & Hget).
    exists (row' :: M). cbn [setCell]. rewrite E. split; [reflexivity|].
    split; [reflexivity|]. split.
    + intros [|i']; [exact Hlen | reflexivity].
    + intros [|i'] j'; [exact (Hget j') | reflexivity].
  - destruct (IH i ltac:(simpl in Hi; lia) Hj) as (M' & E & Hlen & Hrows & Hget).
    exists (row :: M'). cbn [setCell]. rewrite E. split; [reflexivity|].
    split; [simpl; rewrite Hlen; reflexivity|]. split.
    + intros [|i']; [reflexivity | exact (Hrows i')].
    + intros [|i'] j'; [reflexivity | exact (Hget i' j')].
Qed.

Lemma setCell_no_row (M : list (list R)) (i j : nat) (v : R) :
  length M <= i -> setCell M i j v = None.
Proof.
  revert i. induction M as [|row M IH]; intros i Hi; [reflexivity|].
  destruct i as [|i]; [simpl in Hi; lia|].
  cbn [setCell]. rewrite IH by (simpl in Hi; lia). reflexivity.
Qed.

Lemma rows_length_rowAt (M : list (list R)) (n : nat) :
  Forall (fun row => length row = n) M <->
  forall i, i < length M -> length (rowAt M i) = n.
Proof.
  rewrite Forall_forall. split.
  - intros K i Hi. apply K. apply nth_In. exact Hi.
  - intros K row Hin. destruct (In_nth M row [] Hin) as (i & Hi & <-).
    apply K. exact Hi.
Qed.

End EditFacts.

(** X12.  A change of a cell of one of the two tables: a value that is not
    finite or is below zero leaves the state as it is; any other value typed
    into a cell that exists is stored in that entry and nowhere else, and the
    page stays lock-step with its labels, session and the other table
    untouched.  A write into a matrix row that does not exist fails. *)
Theorem cell_change_spec :
  forall (R : Type) (N : JsNumber R) (i j : nat) (v : R) (s : state R),
    (negb (isFinite v) || lt v lit0 = true ->
     onMatrixChange i j v s = Some s /\ onInitChange j v s = Some s) /\
    (negb (isFinite v) || lt v lit0 = false ->
     i < length (P s) -> j < length (rowAt (P s) i) ->
     exists s',
       onMatrixChange i j v s = Some s' /\
       (forall i' j', at_ (rowAt (P s') i') j' =
                      if Nat.eqb i' i && Nat.eqb j' j then v
                      else at_ (rowAt (P s) i') j') /\
       (lockStep s -> lockStep s') /\
       labels s' = labels s /\ p0 s' = p0 s /\ p s' = p s /\
       stepIdx s' = stepIdx s) /\
    (negb (isFinite v) || lt v lit0 = false ->
     j < length (p0 s) ->
     exists s',
       onInitChange j v s = Some s' /\
       (forall j', at_ (p0 s') j' = if Nat.eqb j' j then v else at_ (p0 s) j') /\
       (lockStep s -> lockStep s') /\
       labels s' = labels s /\ P s' = P s /\ p s' = p s /\
       stepIdx s' = stepIdx s) /\
    (negb (isFinite v) || lt v lit0 = false ->
     length (P s) <= i -> onMatrixChange i j v s = None).
Proof.
  intros R N i j v s. split; [|split; [|split]].
  - intro Hbad. unfold onMatrixChange, onInitChange. rewrite Hbad.
    split; reflexivity.
  - intros Hgood Hi Hj. unfold onMatrixChange. rewrite Hgood.
    destruct (setCell_inside (P s) i j v Hi Hj) as (M' & E & Hlen & Hrows & Hget).
    rewrite E. eexists. split; [reflexivity|].
    cbn [P labels p0 p stepIdx withConfig]. split; [exact Hget|].
    split; [|repeat split].
    intros (Hn & Hp0 & Hr & Hsq). unfold lockStep. cbn [P labels p0 withConfig].
    rewrite Hlen. repeat split; try assumption.
    apply rows_length_rowAt. intros i' Hi'. rewrite Hrows.
    rewrite Hlen in Hi'. exact (proj1 (rows_length_rowAt (P s) _) Hsq i' Hi').
  - intros Hgood Hj. unfold onInitChange. rewrite Hgood.
    destruct (setEntry_inside (p0 s) j v Hj) as (q & E & Hlen & Hget).
    rewrite E. eexists. split; [reflexivity|].
    cbn [P labels p0 p stepIdx withConfig]. split; [exact Hget|].
    split; [|repeat split].
    intros (Hn & Hp0 & Hr & Hsq). unfold lockStep. cbn [P labels p0 withConfig].
    rewrite Hlen. repeat split; assumption.
  - intros Hgood Hi. unfold onMatrixChange. rewrite Hgood.
    rewrite (setCell_no_row (P s) i j v Hi). reflexivity.
Qed.

(** Typing 0.5 into cell (1, 0) of the weather matrix. *)
Lemma cell_change_spec_witness :
  exists s',
    onMatrixChange 1 0 0.5%float FloatPresets.weatherPage = Some s' /\
    P s' = [[0.8; 0.2]; [0.5; 0.6]]%float /\
    onMatrixChange 1 0 (-1)%float FloatPresets.weatherPage = Some FloatPresets.weatherPage.
Proof.
  assert (Hgood : negb (isFinite 0.5%float) || lt 0.5%float lit0 = false)
    by (vm_compute; reflexivity).
  assert (Hbad : negb (isFinite (-1)%float) || lt (-1)%float lit0 = true)
    by (vm_compute; reflexivity).
  destruct (proj1 (proj2 (cell_change_spec float _ 1 0 0.5%float
                            FloatPresets.weatherPage))
              Hgood (le_n 2) (le_S _ _ (le_n 1)))
    as (s' & E & _).
  exists s'. split; [exact E|]. split.
  - vm_compute in E. injection E as <-. reflexivity.
  - exact (proj1 (proj1 (cell_change_spec float _ 1 0 (-1)%float
                            FloatPresets.weatherPage) Hbad)).
Defined.

(** ** The absorbing-state report *)

Lemma seq_StronglySorted (a n : nat) : StronglySorted Nat.lt (seq a n).
Proof.
  revert a. induction n as [|n IH]; intro a; simpl; constructor.
  - apply IH.
  - apply Forall_forall. intros x Hx. apply in_seq in Hx. unfold Nat.lt. lia.
Qed.

Lemma filter_StronglySorted (f : nat -> bool) (l : list nat) :
  StronglySorted Nat.lt l -> StronglySorted Nat.lt (filter f l).
Proof.
  induction 1 as [|x l Hs IH Hx]; simpl; [constructor|].
  destruct (f x); [|exact IH].
  constructor; [exact IH|].
  apply Forall_forall. intros y Hy. apply filter_In in Hy.
  rewrite Forall_forall in Hx. apply Hx. tauto.
Qed.

(** X13.  [absorbingStates] lists indices of rows of the matrix, each at most
    once and in increasing order.  [checkAbsorbing] appends exactly one line
    to the analysis box and changes nothing else: the line is "No absorbing
    states detected." exactly when the list is empty, and otherwise it names,
    on a page with as many labels as rows, only labels of the page. *)
Theorem checkAbsorbing_spec :
  forall (R : Type) (N : JsNumber R) (s : state R),
    StronglySorted Nat.lt (absorbingStates (P s) lit1e_12) /\
    NoDup (absorbingStates (P s) lit1e_12) /\
    (forall i, In i (absorbingStates (P s) lit1e_12) -> i < length (P s)) /\
    (exists line,
        checkAbsorbing s = logAnalysis (Text line) s /\
        (line = "No absorbing states detected."%string <->
         absorbingStates (P s) lit1e_12 = []) /\
        (absorbingStates (P s) lit1e_12 <> [] ->
         line = ("Absorbing states: " ++
                 String.concat ", "
                   (map (fun i => nth i (labels s) EmptyString)
                        (absorbingStates (P s) lit1e_12)))%string)) /\
    (length (labels s) = length (P s) ->
     forall i, In i (absorbingStates (P s) lit1e_12) ->
               In (nth i (labels s) EmptyString) (labels s)).
Proof.
  intros R N s.
  assert (Hbound : forall i, In i (absorbingStates (P s) lit1e_12) -> i < length (P s)).
  { intros i Hi. apply absorbingStates_In in Hi. tauto. }
  split; [|split; [|split; [|split]]].
  - unfold absorbingStates. apply filter_StronglySorted, seq_StronglySorted.
  - unfold absorbingStates. apply NoDup_filter, seq_NoDup.
  - exact Hbound.
  - unfold checkAbsorbing.
    destruct (absorbingStates (P s) lit1e_12) as [|i idx] eqn:E.
    + eexists. split; [reflexivity|]. split; [tauto|]. intro K. congruence.
    + eexists. split; [reflexivity|]. split.
      * split; intro K; discriminate.
      * intros _. reflexivity.
  - intros Hlen i Hi. apply nth_In. rewrite Hlen. apply Hbound. exact Hi.
Qed.

(** The absorbing preset with its labels. *)
Lemma checkAbsorbing_spec_witness :
  analysis (checkAbsorbing
              (loaded ["Play"; "Win"; "Lose"]%string FloatPresets.absorbing
                      [1; 0; 0]%float))
  = [Text "Absorbing states: Win, Lose"] /\
  In "Win"%string ["Play"; "Win"; "Lose"]%string.
Proof.
  split; [vm_compute; reflexivity|].
  refine (proj2 (proj2 (proj2 (proj2
            (checkAbsorbing_spec float _
               (loaded ["Play"; "Win"; "Lose"]%string FloatPresets.absorbing
                       [1; 0; 0]%float))))) eq_refl 1 _).
  vm_compute. left. reflexivity.
Defined.

(** ** What the power method returns *)

Section PowerInvariantFacts.

Context {R : Type} `{JsNumber R}.

Lemma powerLoop_invariant (Q : list R -> Prop) (M : list (list R)) (tol : R) :
  (forall v, Q v -> Q (multRowVecMat v M)) ->
  forall m v, Q v -> Q (powerLoop M tol m v).
Proof.
  intros Hstep m. induction m as [|m IH]; intros v Hv; [exact Hv|].
  simpl. destruct (lt (l1 (multRowVecMat v M) v) tol).
  - apply Hstep. exact Hv.
  - apply IH. apply Hstep. exact Hv.
Qed.

Lemma stationaryDistribution_length (M : list (list R)) (tol : R) (m : nat) :
  length (stationaryDistribution M tol m) = length M.
Proof.
  unfold stationaryDistribution.
  apply (powerLoop_invariant (fun v => length v = length M)).
  - intros v _. apply multRowVecMat_length.
  - unfold uniform. apply repeat_length.
Qed.

End PowerInvariantFacts.

Section ExactDistribution.

Local Open Scope Qc_scope.

Lemma exact_ofNat_succ (n : nat) : (ofNat (S n) : Qc) = ofNat n + 1.
Proof.
  apply Qc_is_canon.
  change (this (ofNat (S n))) with (Qred (inject_Z (Z.of_nat (S n)))).
  change (this (ofNat n + 1)) with (Qred (Qred (inject_Z (Z.of_nat n)) + Qred 1)).
  rewrite !Qred_correct, Nat2Z.inj_succ. unfold Z.succ.
  rewrite inject_Z_plus. reflexivity.
Qed.

Lemma exact_rowSum_repeat (c : Qc) (n : nat) : rowSum (repeat c n) = ofNat n * c.
Proof.
  induction n as [|n IH].
  - change (0 = 0 * c). ring.
  - cbn [repeat]. rewrite exact_rowSum_cons, IH, exact_ofNat_succ. ring.
Qed.

Lemma exact_ofNat_pos (n : nat) : (1 <= n)%nat -> 0 < (ofNat n : Qc).
Proof.
  intro Hn. apply exact_lt_iff. change (0 : Qc) with (ofNat 0 : Qc).
  apply exact_ofNat_lt. lia.
Qed.

Lemma exact_uniform_distribution (n : nat) :
  (1 <= n)%nat ->
  rowSum (uniform n : list Qc) = 1 /\ forall x, In x (uniform n : list Qc) -> 0 <= x.
Proof.
  intro Hn. pose proof (exact_ofNat_pos n Hn) as Hpos. unfold uniform. split.
  - rewrite exact_rowSum_repeat.
    change (div lit1 (ofNat n)) with (1 / (ofNat n : Qc)).
    field. intro E. rewrite E in Hpos. exact (Qclt_not_eq _ _ Hpos eq_refl).
  - intros x Hx. apply repeat_spec in Hx. subst x.
    change (div lit1 (ofNat n)) with (1 / (ofNat n : Qc)).
    apply exact_div_nonneg; [|exact Hpos].
    apply exact_le_iff. vm_compute. reflexivity.
Qed.

Lemma exact_rowSum_nonneg (l : list Qc) :
  (forall x, In x l -> 0 <= x) -> 0 <= rowSum l.
Proof.
  induction l as [|x l IH]; intro K.
  - apply exact_le_iff. vm_compute. reflexivity.
  - rewrite exact_rowSum_cons.
    replace 0 with (0 + 0) by ring.
    apply Qcplus_le_compat; [apply K; now left | apply IH].
    intros y Hy. apply K. now right.
Qed.

Lemma exact_mult_nonneg (a b : Qc) : 0 <= a -> 0 <= b -> 0 <= a * b.
Proof.
  intros Ha Hb. replace 0 with (0 * b) by ring.
  apply Qcmult_le_compat_r; assumption.
Qed.

Lemma exact_multRowVecMat_nonneg (v : list Qc) (M : list (list Qc)) :
  length v = length M ->
  Forall (fun row => length row = length M) M ->
  (forall x, In x v -> 0 <= x) ->
  (forall row x, In row M -> In x row -> 0 <= x) ->
  forall y, In y (multRowVecMat v M) -> 0 <= y.
Proof.
  intros Hv Hsq Hvn HMn y Hy. unfold multRowVecMat in Hy.
  apply in_map_iff in Hy. destruct Hy as (j & <- & Hj). apply in_seq in Hj.
  rewrite dotColumn_rowSum. apply exact_rowSum_nonneg.
  intros x Hx. apply in_map_iff in Hx. destruct Hx as (k & <- & Hk).
  apply in_seq in Hk.
  assert (Hrow : In (rowAt M k) M) by (apply nth_In; lia).
  apply exact_mult_nonneg.
  - apply Hvn. apply nth_In. lia.
  - apply (HMn (rowAt M k)); [exact Hrow|]. apply nth_In.
    rewrite Forall_forall in Hsq. rewrite (Hsq _ Hrow). lia.
Qed.

End ExactDistribution.

(** X14.  [stationaryDistribution] returns one number per state, whatever the
    matrix, the tolerance and the iteration cap.  In exact arithmetic, for a
    square matrix with at least one state, no negative entry and every row
    summing to one, what it returns is a probability distribution (no negative
    entry, sum one), whether it stopped by convergence or by the cap. *)
Theorem stationaryDistribution_is_distribution :
  (forall (R : Type) (N : JsNumber R) (M : list (list R)) (tol : R) (maxIter : nat),
      length (stationaryDistribution M tol maxIter) = length M) /\
  (forall (M : list (list Qc)) (tol : Qc) (maxIter : nat),
      1 <= length M ->
      Forall (fun row => length row = length M) M ->
      Forall (fun row => rowSum row = 1%Qc) M ->
      (forall row x, In row M -> In x row -> (0 <= x)%Qc) ->
      rowSum (stationaryDistribution M tol maxIter) = 1%Qc /\
      forall x, In x (stationaryDistribution M tol maxIter) -> (0 <= x)%Qc).
Proof.
  split.
  - intros R N M tol maxIter. apply stationaryDistribution_length.
  - intros M tol maxIter Hn Hsq Hone Hnn.
    assert (K : length (stationaryDistribution M tol maxIter) = length M /\
                rowSum (stationaryDistribution M tol maxIter) = 1%Qc /\
                forall x, In x (stationaryDistribution M tol maxIter) -> (0 <= x)%Qc).
    { unfold stationaryDistribution.
      apply (powerLoop_invariant
               (fun v : list Qc => length v = length M /\ rowSum v = 1%Qc /\
                                   forall x, In x v -> (0 <= x)%Qc)).
      - intros v (Hv & Hs & Hvn). split; [apply multRowVecMat_length|]. split.
        + rewrite (exact_multRowVecMat_sum v M Hv Hsq Hone). exact Hs.
        + apply exact_multRowVecMat_nonneg; assumption.
      - split; [unfold uniform; apply repeat_length|].
        apply exact_uniform_distribution. exact Hn. }
    tauto.
Qed.

(** The weather matrix in exact arithmetic, at the program's tolerance and
    cap. *)
Lemma stationaryDistribution_is_distribution_witness :
  rowSum (stationaryDistribution ExactPresets.weather lit1e_10 (20 * 1000)) = 1%Qc.
Proof.
  refine (proj1 (proj2 stationaryDistribution_is_distribution
                   ExactPresets.weather lit1e_10 (20 * 1000) _ _ _ _)).
  - simpl. lia.
  - repeat constructor.
  - repeat constructor; apply Qc_is_canon; vm_compute; reflexivity.
  - intros row x Hrow Hx. apply exact_le_iff.
    repeat (destruct Hrow as [<- | Hrow];
            [repeat (destruct Hx as [<- | Hx]; [vm_compute; reflexivity|]);
             destruct Hx|]).
    destruct Hrow.
Defined.

(** ** How far a validated step can move the total mass *)

Section ExactDrift.

Local Open Scope Qc_scope.

Lemma exact_multRowVecMat_weighted (v : list Qc) (M : list (list Qc)) :
  length v = length M ->
  Forall (fun row => length row = length M) M ->
  rowSum (multRowVecMat v M) =
  rowSum (map (fun k => at_ v k * rowSum (rowAt M k)) (seq 0 (length M))).
Proof.
  intros Hv Hsq. unfold multRowVecMat.
  set (n := length M).
  rewrite (map_ext _ _ (fun j => dotColumn_rowSum v M n j)).
  rewrite (exact_rowSum_swap _ _
             (fun j k => mul (at_ v k) (at_ (rowAt M k) j)) (seq 0 n) (seq 0 n)).
  f_equal. apply map_ext_in. intros k Hk. apply in_seq in Hk.
  change (fun j => mul (at_ v k) (at_ (rowAt M k) j))
    with (fun j => (at_ v k * at_ (rowAt M k) j)%Qc).
  rewrite exact_rowSum_times.
  assert (Hrow : In (rowAt M k) M) by (apply nth_In; unfold n in Hk; lia).
  rewrite Forall_forall in Hsq.
  pose proof (at_all (rowAt M k)) as Hall.
  rewrite (Hsq _ Hrow) in Hall. fold n in Hall.
  rewrite Hall. reflexivity.
Qed.

Lemma exact_rowSum_le (A : Type) (f g : A -> Qc) (l : list A) :
  (forall k, In k l -> f k <= g k) -> rowSum (map f l) <= rowSum (map g l).
Proof.
  induction l as [|x l IH]; intro K; simpl map.
  - apply Qcle_refl.
  - rewrite !exact_rowSum_cons. apply Qcplus_le_compat.
    + apply K. now left.
    + apply IH. intros k Hk. apply K. now right.
Qed.

Lemma exact_row_within (M : list (list Qc)) (tol : Qc) (row : list Qc) :
  isRowStochastic M tol = true -> In row M ->
  1 - tol <= rowSum row /\ rowSum row <= 1 + tol.
Proof.
  intros Hok Hin.
  assert (Habs : Qcabs (rowSum row - 1) <= tol).
  { apply exact_lt_false_iff.
    destruct (lt tol (abs (sub (rowSum row) lit1))) eqn:E; [|exact E].
    assert (K : isRowStochastic M tol = false).
    { apply isRowStochastic_false. exists row. split; [exact Hin|]. right. exact E. }
    congruence. }
  apply Qcabs_Qcle_condition in Habs. destruct Habs as [Hlo Hhi]. split.
  - replace (rowSum row) with ((rowSum row - 1) + 1) by ring.
    replace (1 - tol) with (- tol + 1) by ring.
    apply Qcplus_le_compat; [exact Hlo | apply Qcle_refl].
  - replace (rowSum row) with ((rowSum row - 1) + 1) by ring.
    replace (1 + tol) with (tol + 1) by ring.
    apply Qcplus_le_compat; [exact Hhi | apply Qcle_refl].
Qed.

Lemma exact_at_all_sum (v : list Qc) :
  rowSum (map (at_ v) (seq 0 (length v))) = rowSum v.
Proof. rewrite at_all. reflexivity. Qed.

End ExactDrift.

(** X15.  In exact arithmetic, one product with a square matrix that passes
    [isRowStochastic] at tolerance [tol] changes the total of a vector without
    negative entries by at most [tol] times that total: the check bounds how
    much probability mass a step can create or lose. *)
Theorem validated_step_mass_drift :
  forall (v : list Qc) (M : list (list Qc)) (tol : Qc),
    length v = length M ->
    Forall (fun row => length row = length M) M ->
    (forall x, In x v -> (0 <= x)%Qc) ->
    isRowStochastic M tol = true ->
    (Qcabs (rowSum (multRowVecMat v M) - rowSum v) <= tol * rowSum v)%Qc.
Proof.
  intros v M tol Hv Hsq Hnn Hok.
  rewrite (exact_multRowVecMat_weighted v M Hv Hsq).
  apply Qcabs_diff_Qcle_condition.
  assert (Hterm : forall k, In k (seq 0 (length M)) ->
            (at_ v k * (1 - tol) <= at_ v k * rowSum (rowAt M k))%Qc /\
            (at_ v k * rowSum (rowAt M k) <= at_ v k * (1 + tol))%Qc).
  { intros k Hk. apply in_seq in Hk.
    assert (Hrow : In (rowAt M k) M) by (apply nth_In; lia).
    destruct (exact_row_within M tol _ Hok Hrow) as [Hlo Hhi].
    assert (Hvk : (0 <= at_ v k)%Qc) by (apply Hnn, nth_In; lia).
    rewrite !(Qcmult_comm (at_ v k)).
    split; apply Qcmult_le_compat_r; assumption. }
  pose proof (exact_rowSum_le _ (fun k => at_ v k * (1 - tol))%Qc
                (fun k => at_ v k * rowSum (rowAt M k))%Qc (seq 0 (length M))
                (fun k Hk => proj1 (Hterm k Hk))) as Hlo.
  pose proof (exact_rowSum_le _ (fun k => at_ v k * rowSum (rowAt M k))%Qc
                (fun k => at_ v k * (1 + tol))%Qc (seq 0 (length M))
                (fun k Hk => proj2 (Hterm k Hk))) as Hhi.
  assert (Hscale : forall c : Qc,
            rowSum (map (fun k => at_ v k * c)%Qc (seq 0 (length M)))
            = (c * rowSum v)%Qc).
  { intro c.
    rewrite (map_ext _ (fun k => c * at_ v k)%Qc) by (intro k; ring).
    rewrite exact_rowSum_times, <- Hv, exact_at_all_sum. reflexivity. }
  rewrite Hscale in Hlo, Hhi.
  set (S' := rowSum (map (fun k => (at_ v k * rowSum (rowAt M k))%Qc)
                         (seq 0 (length M)))) in *.
  split.
  - apply (proj2 (Qcle_minus_iff _ _)).
    replace (rowSum v + - (S' - tol * rowSum v))%Qc
      with ((1 + tol) * rowSum v + - S')%Qc by ring.
    apply (proj1 (Qcle_minus_iff _ _)). exact Hhi.
  - apply (proj2 (Qcle_minus_iff _ _)).
    replace (S' + tol * rowSum v + - rowSum v)%Qc
      with (S' + - ((1 - tol) * rowSum v))%Qc by ring.
    apply (proj1 (Qcle_minus_iff _ _)). exact Hlo.
Qed.

(** A matrix whose first row sums to 1.0000000005 passes the check, and the
    step from [0.5, 0.5] gains at most 1e-9 of the mass. *)
Lemma validated_step_mass_drift_witness :
  (Qcabs (rowSum (multRowVecMat [Exact.dec 1 2; Exact.dec 1 2]
                    [[Exact.dec 5000000005 10000000000; Exact.dec 1 2];
                     [Exact.dec 1 4; Exact.dec 3 4]])
          - rowSum [Exact.dec 1 2; Exact.dec 1 2])
   <= lit1e_9 * rowSum [Exact.dec 1 2; Exact.dec 1 2])%Qc.
Proof.
  apply validated_step_mass_drift.
  - reflexivity.
  - repeat constructor.
  - intros x Hx. apply exact_le_iff.
    repeat (destruct Hx as [<- | Hx]; [vm_compute; reflexivity|]). destruct Hx.
  - vm_compute. reflexivity.
Defined.

(** ** An absorbing state absorbs *)

Section ExactAbsorbing.

Local Open Scope Qc_scope.

Lemma exact_delta_sum (i : nat) (g : nat -> Qc) (n : nat) :
  forall a,
    rowSum (map (fun k => (if Nat.eqb i k then 1 else 0) * g k) (seq a n)) =
    if (a <=? i)%nat && (i <? a + n)%nat then g i else 0.
Proof.
  induction n as [|n IH]; intro a.
  - simpl seq. simpl map.
    replace (i <? a + 0)%nat with (i <? a)%nat by (f_equal; lia).
    destruct (a <=? i)%nat eqn:E1, (i <? a)%nat eqn:E2; try reflexivity.
    apply Nat.leb_le in E1. apply Nat.ltb_lt in E2. lia.
  - simpl seq. simpl map. rewrite exact_rowSum_cons, IH.
    destruct (Nat.eqb i a) eqn:Eia.
    + apply Nat.eqb_eq in Eia. subst a.
      replace (S i <=? i)%nat with false by (symmetry; apply Nat.leb_gt; lia).
      replace (i <=? i)%nat with true by (symmetry; apply Nat.leb_le; lia).
      replace (i <? i + S n)%nat with true by (symmetry; apply Nat.ltb_lt; lia).
      simpl. ring.
    + apply Nat.eqb_neq in Eia.
      replace (i <? a + S n)%nat with (i <? S a + n)%nat by (f_equal; lia).
      destruct (a <=? i)%nat eqn:E1, (S a <=? i)%nat eqn:E2; simpl; try ring.
      * apply Nat.leb_le in E1. apply Nat.leb_gt in E2. lia.
      * apply Nat.leb_gt in E1. apply Nat.leb_le in E2. lia.
Qed.

Lemma exact_abs_zero (x y : Qc) : Qcabs (x - y) <= 0 -> x = y.
Proof.
  intro Hle.
  assert (E : Qcabs (x - y) = 0)
    by (apply Qcle_antisym; [exact Hle | apply Qcabs_nonneg]).
  apply Qcabs_null in E.
  replace x with ((x - y) + y) by ring. rewrite E. ring.
Qed.

Lemma exact_step_from_basis (M : list (list Qc)) (i : nat) :
  Forall (fun row => length row = length M) M ->
  (i < length M)%nat ->
  multRowVecMat (basis (length M) i) M = rowAt M i.
Proof.
  intros Hsq Hi.
  assert (Hrow : In (rowAt M i) M) by (apply nth_In; exact Hi).
  rewrite Forall_forall in Hsq.
  rewrite <- (at_all (rowAt M i)), (Hsq _ Hrow).
  unfold multRowVecMat. apply map_ext_in. intros j Hj.
  rewrite dotColumn_rowSum.
  rewrite (map_ext_in _ (fun k0 => ((if Nat.eqb i k0 then 1 else 0)
                                    * at_ (rowAt M k0) j)%Qc)).
  - rewrite (exact_delta_sum i (fun k0 => at_ (rowAt M k0) j) (length M) 0).
    replace (0 <=? i)%nat with true by (symmetry; apply Nat.leb_le; lia).
    replace (i <? 0 + length M)%nat with true by (symmetry; apply Nat.ltb_lt; lia).
    reflexivity.
  - intros k0 Hk0. apply in_seq in Hk0. unfold at_ at 1, basis.
    rewrite nth_map_seq by lia. reflexivity.
Qed.

Lemma exact_l1_terms (a b : list Qc) :
  l1 a b = rowSum (map (fun i => Qcabs (at_ a i - at_ b i)) (seq 0 (length a))).
Proof. unfold l1, rowSum. apply fold_left_terms. Qed.

End ExactAbsorbing.

(** X16.  In exact arithmetic, on a square matrix, a step from the
    distribution that puts all mass on state [i] returns row [i] of the
    matrix.  Hence a state that [absorbingStates] reports at tolerance [tol]
    keeps that distribution within [n * tol] (in [l1] distance) after a step,
    and at tolerance zero it is a fixed point of any number of steps. *)
Theorem absorbing_state_is_fixed :
  forall (M : list (list Qc)) (i : nat),
    Forall (fun row => length row = length M) M ->
    (i < length M -> multRowVecMat (basis (length M) i) M = rowAt M i) /\
    (forall tol : Qc,
        In i (absorbingStates M tol) ->
        (l1 (multRowVecMat (basis (length M) i) M) (basis (length M) i)
         <= ofNat (length M) * tol)%Qc) /\
    (In i (absorbingStates M lit0) ->
     forall k, iterate M (basis (length M) i) k = basis (length M) i).
Proof.
  intros M i Hsq.
  assert (Hlen : forall i0, i0 < length M -> length (rowAt M i0) = length M).
  { intros i0 Hi0. rewrite Forall_forall in Hsq. apply Hsq, nth_In, Hi0. }
  split; [apply exact_step_from_basis; exact Hsq|]. split.
  - intros tol Hin. apply absorbingStates_In in Hin. destruct Hin as [Hi Hrow].
    rewrite (exact_step_from_basis M i Hsq Hi), exact_l1_terms, (Hlen i Hi).
    rewrite <- (exact_rowSum_repeat tol (length M)).
    replace (repeat tol (length M))
      with (map (fun _ : nat => tol) (seq 0 (length M)))
      by (rewrite map_const, length_seq; reflexivity).
    apply exact_rowSum_le. intros j Hj. apply in_seq in Hj.
    unfold at_ at 2, basis. rewrite nth_map_seq by lia.
    apply exact_lt_false_iff. exact (Hrow j ltac:(lia)).
  - intros Hin k. apply absorbingStates_In in Hin. destruct Hin as [Hi Hrow].
    assert (Hfix : multRowVecMat (basis (length M) i) M = basis (length M) i).
    { rewrite (exact_step_from_basis M i Hsq Hi).
      rewrite <- (at_all (rowAt M i)), (Hlen i Hi).
      unfold basis. apply map_ext_in. intros j Hj. apply in_seq in Hj.
      apply exact_abs_zero. apply exact_lt_false_iff. exact (Hrow j ltac:(lia)). }
    induction k as [|k IH]; [reflexivity|].
    change (iterate M (basis (length M) i) (S k))
      with (multRowVecMat (iterate M (basis (length M) i) k) M).
    rewrite IH. exact Hfix.
Qed.

(** State 1 ("Win") of the absorbing preset, and a step from state 0. *)
Lemma absorbing_state_is_fixed_witness :
  multRowVecMat [Exact.dec 1 1; Exact.dec 0 1; Exact.dec 0 1] ExactPresets.absorbing
  = [Exact.dec 85 100; Exact.dec 10 100; Exact.dec 5 100] /\
  iterate ExactPresets.absorbing [Exact.dec 0 1; Exact.dec 1 1; Exact.dec 0 1] 7
  = [Exact.dec 0 1; Exact.dec 1 1; Exact.dec 0 1].
Proof.
  assert (Hsq : Forall (fun row => length row = length ExactPresets.absorbing)
                       ExactPresets.absorbing) by (repeat constructor).
  split.
  - exact (proj1 (absorbing_state_is_fixed ExactPresets.absorbing 0 Hsq)
             (Nat.lt_0_succ 2)).
  - refine (proj2 (proj2 (absorbing_state_is_fixed ExactPresets.absorbing 1 Hsq)) _ 7).
    vm_compute. left. reflexivity.
Defined.

(** ** The distance the power method stops on *)

Section DistanceFacts.

Context {R : Type} `{JsNumber R}.

Lemma l1_ignores_tail (a b extra : list R) :
  length a <= length b -> l1 a (b ++ extra) = l1 a b.
Proof.
  intro Hlen. unfold l1. apply fold_left_ext_in. intros s i Hi.
  apply in_seq in Hi. unfold at_ at 2 4. rewrite app_nth1 by lia. reflexivity.
Qed.

End DistanceFacts.

Section ExactDistance.

Local Open Scope Qc_scope.

Lemma exact_sum_zero (l : list Qc) :
  (forall x, In x l -> 0 <= x) -> rowSum l = 0 -> forall x, In x l -> x = 0.
Proof.
  induction l as [|y l IH]; intros Hnn Hsum x Hx; [destruct Hx|].
  rewrite exact_rowSum_cons in Hsum.
  assert (Hy : 0 <= y) by (apply Hnn; now left).
  assert (Hl : 0 <= rowSum l)
    by (apply exact_rowSum_nonneg; intros z Hz; apply Hnn; now right).
  assert (Hy0 : y = 0).
  { apply Qcle_antisym; [|exact Hy].
    rewrite <- Hsum. replace y with (y + 0) at 1 by ring.
    apply Qcplus_le_compat; [apply Qcle_refl | exact Hl]. }
  destruct Hx as [<- | Hx]; [exact Hy0|].
  apply IH; [intros z Hz; apply Hnn; now right | | exact Hx].
  rewrite Hy0 in Hsum. rewrite <- Hsum. ring.
Qed.

Lemma exact_l1_nonneg (a b : list Qc) : 0 <= l1 a b.
Proof.
  rewrite exact_l1_terms. apply exact_rowSum_nonneg.
  intros x Hx. apply in_map_iff in Hx. destruct Hx as (i & <- & _).
  apply Qcabs_nonneg.
Qed.

Lemma exact_l1_self (a : list Qc) : l1 a a = 0.
Proof.
  rewrite exact_l1_terms.
  rewrite (map_ext _ (fun _ => 0)).
  - apply exact_rowSum_zeros.
  - intro i. replace (at_ a i - at_ a i) with 0 by ring.
    apply Qcabs_pos, Qcle_refl.
Qed.

Lemma exact_l1_sym (a b : list Qc) : length a = length b -> l1 a b = l1 b a.
Proof.
  intro Hlen. rewrite !exact_l1_terms, Hlen. f_equal. apply map_ext.
  intro i. apply Qcabs_Qcminus.
Qed.

Lemma exact_l1_separates (a b : list Qc) :
  length a = length b -> l1 a b = 0 -> a = b.
Proof.
  intros Hlen Hzero. rewrite exact_l1_terms in Hzero.
  apply (nth_ext _ _ NaN NaN Hlen). intros i Hi.
  apply exact_abs_zero. change (Qcabs (at_ a i - at_ b i) <= 0).
  assert (E : Qcabs (at_ a i - at_ b i) = 0).
  { apply (exact_sum_zero
             (map (fun i => Qcabs (at_ a i - at_ b i)) (seq 0 (length a)))).
    - intros x Hx. apply in_map_iff in Hx. destruct Hx as (j & <- & _).
      apply Qcabs_nonneg.
    - exact Hzero.
    - apply in_map_iff. exists i. split; [reflexivity|]. apply in_seq. lia. }
  rewrite E. apply Qcle_refl.
Qed.

End ExactDistance.

(** X17.  [l1(a, b)] compares only the first [a.length] entries: further
    entries of [b] do not count.  In exact arithmetic it is never negative, is
    zero on equal vectors, is symmetric on vectors of one length, and is zero
    on such vectors only if they are equal.  So a tolerance that is not
    positive can never be met: [stationaryDistribution] then always runs all
    [maxIter] iterations. *)
Theorem l1_spec :
  (forall (R : Type) (N : JsNumber R) (a b extra : list R),
      length a <= length b -> l1 a (b ++ extra) = l1 a b) /\
  (forall a b : list Qc,
      (0 <= l1 a b)%Qc /\ l1 a a = 0%Qc /\
      (length a = length b ->
       l1 a b = l1 b a /\ (l1 a b = 0%Qc -> a = b))) /\
  (forall (M : list (list Qc)) (tol : Qc) (maxIter : nat),
      (tol <= 0)%Qc ->
      stationaryDistribution M tol maxIter
      = iterate M (uniform (length M)) maxIter).
Proof.
  split; [|split].
  - intros R N a b extra. apply l1_ignores_tail.
  - intros a b. split; [apply exact_l1_nonneg|]. split; [apply exact_l1_self|].
    intro Hlen. split; [apply exact_l1_sym | apply exact_l1_separates]; exact Hlen.
  - intros M tol maxIter Htol.
    apply (@powerLoop_exhausted Qc _ M tol maxIter (uniform (length M))).
    intros i _. unfold closeAt. apply exact_lt_false_iff.
    apply (Qcle_trans _ _ _ Htol). apply exact_l1_nonneg.
Qed.

(** With tolerance zero two iterations on the weather matrix return the
    second iterate. *)
Lemma l1_spec_witness :
  stationaryDistribution ExactPresets.weather lit0 2
  = [Exact.dec 64 100; Exact.dec 36 100].
Proof.
  assert (H0 : ((lit0 : Qc) <= 0)%Qc) by apply Qcle_refl.
  rewrite (proj2 (proj2 l1_spec) ExactPresets.weather lit0 2 H0).
  apply Qc_vec_eq. vm_compute. reflexivity.
Defined.

(** ** The initial distribution and Reset *)

Section ExactReset.

Local Open Scope Qc_scope.

Lemma exact_normalize_unit (v : list Qc) : rowSum v = 1 -> normalizeRow v = v.
Proof.
  intro Hone.
  assert (Hpos : 0 < rowSum v)
    by (rewrite Hone; apply exact_lt_iff; vm_compute; reflexivity).
  destruct (exact_normalizeRow_positive v Hpos) as [E _].
  rewrite E, Hone. apply exact_div_one.
Qed.

End ExactReset.

(** X18.  Reset puts the step counter at zero, empties the analysis box and
    rebuilds the session vector from the initial vector, so on a lock-step
    page the session has again one entry per row of the matrix (also after Add
    State or Remove State).  In exact arithmetic the session then sums to one
    when the initial vector has a positive sum and is all zeros otherwise;
    after Normalize the session is the initial vector itself; and after
    Uniform, with [n >= 1] states, it is [(1/n, ..., 1/n)]. *)
Theorem resetSim_spec :
  (forall (R : Type) (N : JsNumber R) (s : state R),
      stepIdx (resetSim s) = 0 /\ analysis (resetSim s) = [] /\
      p0 (resetSim s) = p0 s /\ P (resetSim s) = P s /\
      length (p (resetSim s)) = length (p0 s) /\
      (lockStep s -> length (p (resetSim s)) = length (P (resetSim s))) /\
      (lockStep s -> lockStep (setUniformInit s) /\ lockStep (normalizeInit s))) /\
  (forall s : state Qc,
      ((0 < rowSum (p0 s))%Qc -> rowSum (p (resetSim s)) = 1%Qc) /\
      ((rowSum (p0 s) <= 0)%Qc ->
       p (resetSim s) = repeat 0%Qc (length (p0 s))) /\
      p (resetSim (normalizeInit s)) = p0 (normalizeInit s) /\
      (1 <= length (labels s) ->
       p (resetSim (setUniformInit s)) = uniform (length (labels s)) /\
       rowSum (p (resetSim (setUniformInit s))) = 1%Qc)).
Proof.
  split.
  - intros R N s.
    assert (Hlen : length (p (resetSim s)) = length (p0 s)).
    { cbn [resetSim p withAnalysis withSession]. unfold normalizeVector.
      destruct (le (rowSum (p0 s)) lit0); apply length_map. }
    split; [reflexivity|]. split; [reflexivity|]. split; [reflexivity|].
    split; [reflexivity|]. split; [exact Hlen|]. split.
    + intros (_ & Hp0 & Hrows & _). rewrite Hlen, Hp0.
      symmetry. exact Hrows.
    + intros (Hn & Hp0 & Hrows & Hsq). split.
      * unfold lockStep, setUniformInit, uniform. cbn [labels P p0 withConfig].
        rewrite repeat_length. repeat split; assumption.
      * unfold lockStep, normalizeInit. cbn [labels P p0 withConfig].
        unfold normalizeVector.
        destruct (le (rowSum (p0 s)) lit0); rewrite length_map;
          repeat split; assumption.
  - intro s.
    change (p (resetSim s)) with (normalizeRow (p0 s)).
    change (p (resetSim (normalizeInit s)))
      with (normalizeRow (normalizeRow (p0 s))).
    change (p0 (normalizeInit s)) with (normalizeRow (p0 s)).
    change (p (resetSim (setUniformInit s)))
      with (normalizeRow (uniform (length (labels s)) : list Qc)).
    split; [|split; [|split]].
    + intro Hpos. exact (proj2 (exact_normalizeRow_positive _ Hpos)).
    + intro Hle. exact (proj1 (exact_normalizeRow_nonpositive _ Hle)).
    + apply exact_normalizeRow_twice.
    + intro Hn. destruct (exact_uniform_distribution _ Hn) as [Hone _].
      rewrite (exact_normalize_unit _ Hone). split; [reflexivity | exact Hone].
Qed.

(** Add State on the weather page, then Reset: three session entries for a
    matrix of three rows. *)
Lemma resetSim_spec_witness :
  exists s',
    addState FloatPresets.weatherPage = Some s' /\
    length (p s') = 2 /\ length (P s') = 3 /\
    length (p (resetSim s')) = length (P (resetSim s')).
Proof.
  assert (Hwf : lockStep FloatPresets.weatherPage).
  { unfold lockStep. simpl. repeat split; try lia. repeat constructor. }
  pose proof (addState_grows FloatPresets.weatherPage eq_refl) as Hadd.
  pose proof (grown_lockStep FloatPresets.weatherPage Hwf) as Hwf'.
  eexists. split; [exact Hadd|].
  split; [reflexivity|]. split; [reflexivity|].
  exact (proj1 (proj2 (proj2 (proj2 (proj2 (proj2
           (proj1 resetSim_spec float _ _)))))) Hwf').
Defined.
